(** * Developer network visualization: the component's own logic

    A shallow embedding of the React/d3 component that draws the
    code-review network: [src/network-viz-directed.tsx] (an untyped and a
    typed variant in one file) and [src/components/NetworkVisualization.tsx].
    The definitions come first, the properties after them.

    Conventions.
    - A JavaScript number is an exact rational ([Q]) and equality of
      numbers is [Qeq] ([==]): rounding, overflow and the non-finite
      doubles are left out, except in [Csv.number], where [Number(text)]
      can give [NaN] or an infinity.  What is stated of numbers is
      stated where the doubles agree with it: values the doubles hold
      exactly, and bounds that rounding keeps.  The order of two scale
      values is decided by rounding; module [Double] has the scales on
      binary64 numbers for that.
    - [undefined] and [null] are [None].
    - Text is a [string] of bytes.
    - The d3 functions the component calls ([d3.max], [d3.scaleLinear],
      the link resolution of [d3.forceLink], the position update of
      [d3.forceSimulation], the gesture counter of [d3.drag]) are written
      out from the library modules d3-array, d3-scale, d3-force and
      d3-drag, in the release line whose listeners receive [(event, d)],
      the signature the component's handlers have.
    - Node objects are shared between the node array, the resolved links
      and the listeners, and are mutated in place: they are addressed by
      their index in the node array. *)

From Stdlib Require Import Floats.
From Stdlib Require Import QArith Qabs Lqa Lia ZArith Bool List.
From Stdlib Require Import Strings.String Strings.Ascii.
From Stdlib Require Import Reals Qreals.
From stdpp Require Import base option list strings gmap.
Import ListNotations.

Local Open Scope Q_scope.

(** ** Numbers *)

Module Js.

(** [a < b] on numbers, as a boolean. *)
Definition ltb (a b : Q) : bool := negb (Qle_bool b a).

(** [a <= b] on numbers, as a boolean. *)
Definition leb (a b : Q) : bool := Qle_bool a b.

(** [v || d] where [v] is a number or [undefined]: [undefined] and [0]
    are falsy. *)
Definition or_else (v : option Q) (d : Q) : Q :=
  match v with
  | Some q => if Qeq_bool q 0 then d else q
  | None => d
  end.

End Js.

(** ** Data model *)

(** [DeveloperNode]: the row of the node table together with the
    simulation state d3 keeps on the same object. *)
Record DeveloperNode := mkNode {
  developer_id : string;
  country : string;
  betweenness : Q;
  in_degree : Z;
  out_degree : Z;
  x : Q;
  y : Q;
  vx : Q;
  vy : Q;
  fx : option Q;
  fy : option Q
}.

(** A link endpoint is [string | DeveloperNode]: the id as parsed, or,
    once [d3.forceLink] has resolved it, a reference to the node object.
    Node objects live in the [nodes] array and are mutated in place by the
    simulation, so a reference is the object's index in that array. *)
Inductive endpoint :=
| Id (s : string)
| Ref (i : nat).

Record DeveloperLink := mkLink {
  source : endpoint;
  target : endpoint;
  weight : Q
}.

(** ** d3-array and d3-scale *)

Module D3.

(** d3-array [max(values, valueof)]: a left-to-right scan,
    [if (max < value || max === undefined) max = value], that gives
    [undefined] on an empty input. *)
Definition max_step (acc : option Q) (value : Q) : option Q :=
  match acc with
  | None => Some value
  | Some m => if Js.ltb m value then Some value else Some m
  end.

Definition max {A} (values : list A) (valueof : A -> Q) : option Q :=
  fold_left (fun acc d => max_step acc (valueof d)) values None.

(** d3-scale [continuous.js]. *)
Definition constant (c : Q) : Q -> Q := fun _ => c.

(** [normalize(a, b)]:
    [(b -= (a = +a)) ? x => (x - a) / b : constant(isNaN(b) ? NaN : 0.5)];
    a difference of rationals is never [NaN]. *)
Definition normalize (a b : Q) : Q -> Q :=
  let b' := b - a in
  if Qeq_bool b' 0 then constant (1 # 2) else fun x => (x - a) / b'.

(** d3-interpolate [interpolateNumber(a, b)]: [t => a * (1 - t) + b * t]. *)
Definition interpolateNumber (a b : Q) : Q -> Q :=
  fun t => a * (1 - t) + b * t.

(** [bimap(domain, range, interpolate)]:
    [if (d1 < d0) d0 = normalize(d1, d0), r0 = interpolate(r1, r0);
     else d0 = normalize(d0, d1), r0 = interpolate(r0, r1);
     return x => r0(d0(x));] *)
Definition bimap (domain range : Q * Q) : Q -> Q :=
  let '(d0, d1) := domain in
  let '(r0, r1) := range in
  if Js.ltb d1 d0
  then fun x => interpolateNumber r1 r0 (normalize d1 d0 x)
  else fun x => interpolateNumber r0 r1 (normalize d0 d1 x).

(** A linear scale is its domain and its range; clamping is off and no
    [unknown] value is set, as in the component. *)
Record scale := mkScale { scale_domain : Q * Q; scale_range : Q * Q }.

Definition scaleLinear : scale :=
  {| scale_domain := (0, 1); scale_range := (0, 1) |}.

Definition domain (d : Q * Q) (s : scale) : scale :=
  {| scale_domain := d; scale_range := scale_range s |}.

Definition range (r : Q * Q) (s : scale) : scale :=
  {| scale_domain := scale_domain s; scale_range := r |}.

(** Calling the scale on a number. *)
Definition call (s : scale) (v : Q) : Q :=
  bimap (scale_domain s) (scale_range s) v.

End D3.

(** ** The two scales of the component *)

(** [d3.scaleLinear().domain([0, d3.max(nodes, d => d.betweenness) || 0]).range([8, 25])],
    as the typed variants have it.  The untyped variant has no [|| 0]; the
    two differ on an empty table only, where [d3.max] is [undefined]. *)
Definition betweennessScale (nodes : list DeveloperNode) : Q -> Q :=
  D3.call (D3.range (8, 25)
            (D3.domain (0, Js.or_else (D3.max nodes betweenness) 0) D3.scaleLinear)).

(** [d3.scaleLinear().domain([1, d3.max(links, d => d.weight) || 1]).range([1, 4])],
    as the typed variants have it. *)
Definition edgeWeightScale (links : list DeveloperLink) : Q -> Q :=
  D3.call (D3.range (1, 4)
            (D3.domain (1, Js.or_else (D3.max links weight) 1) D3.scaleLinear)).

(** The node table of the spec's example: only [developer_id] and
    [betweenness] are given, the rest is filled with neutral values. *)
Definition row (id : string) (b : Q) : DeveloperNode :=
  mkNode id "Unknown" b 0 0 0 0 0 0 None None.

Definition example_nodes : list DeveloperNode := [row "a" 0; row "b" 10].

(** An edge table whose weights are all below 1. *)
Definition light_links : list DeveloperLink :=
  [mkLink (Id "a") (Id "b") (1 # 2); mkLink (Id "b") (Id "a") (1 # 4)].

(** ** The scales on binary64 numbers

    The functions of [D3] again, on the doubles the scripts compute
    with; a table is given by its column of numbers. *)

Module Double.

(** d3-array [max]:
    [if (value != null && (max < value || (max === undefined && value >= value))) max = value]:
    a [NaN] is never taken. *)
Definition max_step (acc : option float) (value : float) : option float :=
  match acc with
  | None => if (value <=? value)%float then Some value else None
  | Some m => if (m <? value)%float then Some value else Some m
  end.

Definition max (values : list float) : option float :=
  fold_left max_step values None.

(** [v || d]: [undefined], the two zeros and [NaN] are falsy. *)
Definition or_else (v : option float) (d : float) : float :=
  match v with
  | Some q => if (q =? 0)%float || negb (q =? q)%float then d else q
  | None => d
  end.

(** [normalize(a, b)]:
    [(b -= (a = +a)) ? x => (x - a) / b : constant(isNaN(b) ? NaN : 0.5)] *)
Definition normalize (a b : float) : float -> float :=
  let b' := (b - a)%float in
  if (b' =? 0)%float then fun _ => 0.5%float
  else if negb (b' =? b')%float then fun _ => nan
  else fun x => ((x - a) / b')%float.

(** [interpolateNumber(a, b)]: [t => a * (1 - t) + b * t] *)
Definition interpolateNumber (a b : float) : float -> float :=
  fun t => (a * (1 - t) + b * t)%float.

(** [bimap(domain, range, interpolate)] *)
Definition bimap (domain range : float * float) : float -> float :=
  let '(d0, d1) := domain in
  let '(r0, r1) := range in
  if (d1 <? d0)%float
  then fun x => interpolateNumber r1 r0 (normalize d1 d0 x)
  else fun x => interpolateNumber r0 r1 (normalize d0 d1 x).

(** The radius scale of a node table with this betweenness column. *)
Definition betweennessScale (betweenness : list float) : float -> float :=
  bimap (0%float, or_else (max betweenness) 0%float) (8%float, 25%float).

(** The width scale of an edge table with this weight column. *)
Definition edgeWeightScale (weight : list float) : float -> float :=
  bimap (1%float, or_else (max weight) 1%float) (1%float, 4%float).

(** Two neighbouring doubles a little above 1:
    1.0000000000000113 and 1.0000000000000115. *)
Definition lower_neighbour : float := 0x1.0000000000033p+0%float.
Definition upper_neighbour : float := 0x1.0000000000034p+0%float.

End Double.


(** ** Arrowhead markers *)

Inductive arrow_size := small | medium | large.

Definition arrow_name (a : arrow_size) : string :=
  match a with
  | small => "small"
  | medium => "medium"
  | large => "large"
  end.

(** [d.weight <= 2 ? 'small' : d.weight <= 4 ? 'medium' : 'large'] *)
Definition arrow_of_weight (w : Q) : arrow_size :=
  if Js.leb w 2 then small else if Js.leb w 4 then medium else large.

(** The [marker-end] attribute: [`url(#arrow-${...})`]. *)
Definition marker_end (d : DeveloperLink) : string :=
  "url(#arrow-" +:+ arrow_name (arrow_of_weight (weight d)) +:+ ")".

(** The [stroke-width] attribute: [edgeWeightScale(d.weight)]. *)
Definition stroke_width (links : list DeveloperLink) (d : DeveloperLink) : Q :=
  edgeWeightScale links (weight d).

(** The marker definitions:
    [['small', 'medium', 'large'].forEach((size, i) => ...)] gives the
    marker [arrow-${size}] the offset [15 + i * 2] and the width and
    height [6 + i]. *)
Record marker := mkMarker {
  marker_id : string;
  refX : Z;
  markerWidth : Z;
  markerHeight : Z
}.

Definition marker_of (i : nat) (size : arrow_size) : marker :=
  {| marker_id := "arrow-" +:+ arrow_name size;
     refX := 15 + Z.of_nat i * 2;
     markerWidth := 6 + Z.of_nat i;
     markerHeight := 6 + Z.of_nat i |}.

Definition markers : list marker := imap marker_of [small; medium; large].

(** ** Country codes *)

(** Exceptions the component can raise: a [TypeError] of the language, or
    an [Error] thrown by a library. *)
Inductive exn :=
| TypeError (msg : string)
| Error (msg : string).

Module Object.

(** The values a property read on [countryMap] can give. *)
Inductive value :=
| Undefined
| Str (s : string)
| Function (name : string)
| Obj (name : string).

(** What an object literal inherits from [Object.prototype]. *)
Definition prototype : gmap string value :=
  list_to_map
    [("constructor", Function "Object");
     ("__defineGetter__", Function "__defineGetter__");
     ("__defineSetter__", Function "__defineSetter__");
     ("hasOwnProperty", Function "hasOwnProperty");
     ("__lookupGetter__", Function "__lookupGetter__");
     ("__lookupSetter__", Function "__lookupSetter__");
     ("isPrototypeOf", Function "isPrototypeOf");
     ("propertyIsEnumerable", Function "propertyIsEnumerable");
     ("toString", Function "toString");
     ("valueOf", Function "valueOf");
     ("__proto__", Obj "Object.prototype");
     ("toLocaleString", Function "toLocaleString")].

(** [obj[key]] on an object literal whose own properties are [own]: the
    own property, else the inherited one, else [undefined]. *)
Definition get (own : gmap string string) (key : string) : value :=
  match own !! key with
  | Some s => Str s
  | None => default Undefined (prototype !! key)
  end.

Definition truthy (v : value) : bool :=
  match v with
  | Undefined => false
  | Str s => negb (String.eqb s "")
  | Function _ | Obj _ => true
  end.

(** [a || b] *)
Definition or_else (a b : value) : value := if truthy a then a else b.

Definition lower (c : ascii) : ascii :=
  let n := nat_of_ascii c in
  if (65 <=? n)%nat && (n <=? 90)%nat then ascii_of_nat (n + 32) else c.

Fixpoint lower_string (s : string) : string :=
  match s with
  | EmptyString => EmptyString
  | String c rest => String (lower c) (lower_string rest)
  end.

(** [v.toLowerCase()]: defined on strings only. *)
Definition toLowerCase (v : value) : exn + string :=
  match v with
  | Str s => inr (lower_string s)
  | _ => inl (TypeError "getCountryCode(...).toLowerCase is not a function")
  end.

End Object.

Definition countryMap : gmap string string :=
  list_to_map
    [("USA", "US");
     ("United States", "US");
     ("United Kingdom", "GB");
     ("Germany", "DE");
     ("France", "FR");
     ("Spain", "ES");
     ("Italy", "IT");
     ("Netherlands", "NL");
     ("Belgium", "BE");
     ("Switzerland", "CH");
     ("Austria", "AT");
     ("Canada", "CA");
     ("Australia", "AU");
     ("India", "IN");
     ("Unknown", "UN")].

(** [return countryMap[country] || 'UN';] *)
Definition getCountryCode (country : string) : Object.value :=
  Object.or_else (Object.get countryMap country) (Object.Str "UN").

(** The alias applied before the lookup:
    [d.country === 'United States' ? 'USA' : d.country]. *)
Definition flag_country (d : DeveloperNode) : string :=
  if String.eqb (country d) "United States" then "USA" else country d.

(** The [href] of the flag image:
    [`https://flagcdn.com/w40/${getCountryCode(country).toLowerCase()}.png`]. *)
Definition flag_href (d : DeveloperNode) : exn + string :=
  match Object.toLowerCase (getCountryCode (flag_country d)) with
  | inl e => inl e
  | inr code => inr ("https://flagcdn.com/w40/" +:+ code +:+ ".png")
  end.

(** ** Drag handlers and the simulation they drive *)

(** The part of a d3 force simulation the handlers touch: the energy
    [alpha], its target, and how often [restart()] was called. *)
Record simulation := mkSimulation {
  alpha : Q;
  alphaTarget : Q;
  restarts : nat
}.

Definition set_alphaTarget (t : Q) (s : simulation) : simulation :=
  {| alpha := alpha s; alphaTarget := t; restarts := restarts s |}.

Definition restart (s : simulation) : simulation :=
  {| alpha := alpha s; alphaTarget := alphaTarget s; restarts := S (restarts s) |}.

(** A [D3DragEvent], as far as the handlers read it. *)
Record DragEvent := mkDragEvent {
  active : nat;
  event_x : Q;
  event_y : Q
}.

Definition set_pin (px py : option Q) (d : DeveloperNode) : DeveloperNode :=
  {| developer_id := developer_id d; country := country d;
     betweenness := betweenness d; in_degree := in_degree d;
     out_degree := out_degree d;
     x := x d; y := y d; vx := vx d; vy := vy d;
     fx := px; fy := py |}.

(** [!event.active] *)
Definition not_active (event : DragEvent) : bool := Nat.eqb (active event) 0.

Definition dragstarted (event : DragEvent) (s : simulation) (d : DeveloperNode)
  : simulation * DeveloperNode :=
  (if not_active event then restart (set_alphaTarget (3 # 10) s) else s,
   set_pin (Some (x d)) (Some (y d)) d).

Definition dragged (event : DragEvent) (s : simulation) (d : DeveloperNode)
  : simulation * DeveloperNode :=
  (s, set_pin (Some (event_x event)) (Some (event_y event)) d).

Definition dragended (event : DragEvent) (s : simulation) (d : DeveloperNode)
  : simulation * DeveloperNode :=
  (if not_active event then set_alphaTarget 0 s else s,
   set_pin None None d).

Module Force.

(** d3-force [simulation.js]: [velocityDecay = 0.6]. *)
Definition velocityDecay : Q := 6 # 10.

(** The position update at the end of [tick], for one node:
    [if (node.fx == null) node.x += node.vx *= velocityDecay;
     else node.x = node.fx, node.vx = 0;] and the same for [y]. *)
Definition integrate (node : DeveloperNode) : DeveloperNode :=
  let '(x', vx') :=
    match fx node with
    | None => let v := vx node * velocityDecay in (x node + v, v)
    | Some f => (f, 0)
    end in
  let '(y', vy') :=
    match fy node with
    | None => let v := vy node * velocityDecay in (y node + v, v)
    | Some f => (f, 0)
    end in
  {| developer_id := developer_id node; country := country node;
     betweenness := betweenness node; in_degree := in_degree node;
     out_degree := out_degree node;
     x := x'; y := y'; vx := vx'; vy := vy';
     fx := fx node; fy := fy node |}.

End Force.

(** d3-drag keeps one counter of the gestures in progress and passes it to
    the listeners as [event.active]: on "start" the count before this
    gesture is added ([n = active++]), on "drag" the current count, on
    "end" the count after this gesture is removed ([--active, n = active]).
    [page] is what the gestures act on: the counter, the simulation and the
    node objects. *)
Record page := mkPage {
  gestures : nat;
  sim : simulation;
  nodes_of : list DeveloperNode
}.

(** What d3-drag dispatches for the node object [i]; [px], [py] are the
    [x], [y] of the event, the pointer position in the node's frame. *)
Inductive gesture :=
| Start (i : nat)
| Move (i : nat) (px py : Q)
| End (i : nat) (px py : Q).

(** Running a listener on the node object [i]. *)
Definition on_node (i : nat) (n : nat)
    (listener : simulation -> DeveloperNode -> simulation * DeveloperNode)
    (p : page) : page :=
  match nodes_of p !! i with
  | None => p
  | Some d =>
      let '(s', d') := listener (sim p) d in
      {| gestures := n; sim := s'; nodes_of := <[i := d']> (nodes_of p) |}
  end.

Definition dispatch (g : gesture) (p : page) : page :=
  match g with
  | Start i =>
      match nodes_of p !! i with
      | None => p
      | Some d =>
          on_node i (S (gestures p))
            (dragstarted (mkDragEvent (gestures p) (x d) (y d))) p
      end
  | Move i px py =>
      on_node i (gestures p) (dragged (mkDragEvent (gestures p) px py)) p
  | End i px py =>
      on_node i (pred (gestures p))
        (dragended (mkDragEvent (pred (gestures p)) px py)) p
  end.


(** A whole sequence of gestures, oldest first. *)
Definition run (gs : list gesture) (p : page) : page :=
  fold_left (fun p g => dispatch g p) gs p.

(** One drag of node [i]: pressed, moved through [path], released at the
    last point. *)
Definition drag_once (i : nat) (path : list (Q * Q)) (px py : Q) : list gesture :=
  Start i :: map (fun '(a, b) => Move i a b) path ++ [End i px py].



(** A page with two nodes at rest, for the examples. *)
Definition page0 : page :=
  {| gestures := 0;
     sim := {| alpha := 0; alphaTarget := 0; restarts := 0 |};
     nodes_of := [row "a" 0; row "b" 10] |}.

(** ** d3-force: resolving the link endpoints *)

Module ForceLink.

(** [new Map(nodes.map((d, i) => [id(d, i, nodes), d]))] with
    [id = d => d.developer_id]: the entries are added in array order, so
    of two nodes with one id the later one is kept. *)
Fixpoint index_from (k : nat) (nodes : list DeveloperNode) (m : gmap string nat)
  : gmap string nat :=
  match nodes with
  | [] => m
  | d :: rest => index_from (S k) rest (<[developer_id d := k]> m)
  end.

Definition nodeById (nodes : list DeveloperNode) : gmap string nat :=
  index_from 0 nodes ∅.

(** [find(nodeById, nodeId)]:
    [if (!node) throw new Error("node not found: " + nodeId);] *)
Definition find (byId : gmap string nat) (nodeId : string) : exn + nat :=
  match byId !! nodeId with
  | Some i => inr i
  | None => inl (Error ("node not found: " +:+ nodeId))
  end.

(** [if (typeof link.source !== "object") link.source = find(nodeById, link.source);] *)
Definition resolve (byId : gmap string nat) (e : endpoint) : exn + endpoint :=
  match e with
  | Ref i => inr (Ref i)
  | Id s =>
      match find byId s with
      | inl err => inl err
      | inr i => inr (Ref i)
      end
  end.

(** The loop of [initialize] over the links, in order; the first endpoint
    that is not found ends it with the exception. *)
Fixpoint initialize_links (byId : gmap string nat) (links : list DeveloperLink)
  : exn + list DeveloperLink :=
  match links with
  | [] => inr []
  | link :: rest =>
      match resolve byId (source link) with
      | inl err => inl err
      | inr s =>
          match resolve byId (target link) with
          | inl err => inl err
          | inr t =>
              match initialize_links byId rest with
              | inl err => inl err
              | inr rest' => inr (mkLink s t (weight link) :: rest')
              end
          end
      end
  end.

Definition initialize (nodes : list DeveloperNode) (links : list DeveloperLink)
  : exn + list DeveloperLink :=
  initialize_links (nodeById nodes) links.

End ForceLink.

(** ** Edge paths *)

(** An extent in a path: a number, or [Math.sqrt(q) * 2], which is kept as
    it is written because the square root of a rational need not be one. *)
Inductive extent :=
| Rat (q : Q)
| TwiceSqrt (q : Q).

(** The commands of the [d] attribute. *)
Inductive command :=
| MoveTo (px py : Q)
| ArcTo (rx ry : extent) (rotation : Q) (large_arc sweep : bool) (px py : Q)
| ArcBy (rx ry : extent) (rotation : Q) (large_arc sweep : bool) (dx dy : Q).

(** The node object an endpoint gives access to: a string id has no [x],
    [y] or [developer_id]. *)
Definition node_at (nodes : list DeveloperNode) (e : endpoint) : option DeveloperNode :=
  match e with
  | Ref i => nodes !! i
  | Id _ => None
  end.

(** The callback of [links.attr('d', ...)].  [None] stands for a path
    string built from coordinates that are [undefined]. *)
Definition link_path (nodes : list DeveloperNode) (d : DeveloperLink)
  : option (list command) :=
  match node_at nodes (source d), node_at nodes (target d) with
  | Some s, Some t =>
      let dx := x t - x s in
      let dy := y t - y s in
      let dr := TwiceSqrt (dx * dx + dy * dy) in
      if String.eqb (developer_id s) (developer_id t)
      then
        let r := betweennessScale nodes (betweenness s) in
        Some [MoveTo (x s - r) (y s);
              ArcBy (Rat r) (Rat r) 0 true true (r * 2) 0;
              ArcBy (Rat r) (Rat r) 0 true true (- r * 2) 0]
      else
        Some [MoveTo (x s) (y s); ArcTo dr dr 0 false true (x t) (y t)]
  | _, _ => None
  end.

(** The points a path passes through: where each command ends. *)
Fixpoint walk (cur : Q * Q) (cs : list command) : list (Q * Q) :=
  match cs with
  | [] => []
  | MoveTo px py :: rest => (px, py) :: walk (px, py) rest
  | ArcTo _ _ _ _ _ px py :: rest => (px, py) :: walk (px, py) rest
  | ArcBy _ _ _ _ _ dx dy :: rest =>
      let p := (fst cur + dx, snd cur + dy) in p :: walk p rest
  end.

Definition same_point (p q : Q * Q) : Prop := fst p == fst q /\ snd p == snd q.

(** The value of an extent, and the Euclidean distance of two points, as
    real numbers. *)
Definition extent_val (l : extent) : R :=
  match l with
  | Rat q => Q2R q
  | TwiceSqrt q => (sqrt (Q2R q) * 2)%R
  end.

Definition euclid (p q : Q * Q) : R :=
  sqrt ((Q2R (fst q) - Q2R (fst p)) * (Q2R (fst q) - Q2R (fst p))
        + (Q2R (snd q) - Q2R (snd p)) * (Q2R (snd q) - Q2R (snd p)))%R.

(** ** Building the visualization *)

(** What [createVisualization] (the body of the drawing effect) leaves
    behind: the node objects and the links the simulation resolved. *)
Record scene := mkScene {
  scene_nodes : list DeveloperNode;
  scene_links : list DeveloperLink
}.

(** The statements from [d3.forceSimulation(...).force('link', ...)] on:
    an exception of the link force leaves the function before any path or
    listener is created. *)
Definition createVisualization (nodes : list DeveloperNode) (links : list DeveloperLink)
  : exn + scene :=
  match ForceLink.initialize nodes links with
  | inl err => inl err
  | inr links' => inr {| scene_nodes := nodes; scene_links := links' |}
  end.





(** The ids of the node table, and the string ids a link carries. *)
Definition ids (nodes : list DeveloperNode) : list string :=
  developer_id <$> nodes.

Definition endpoint_ids (l : DeveloperLink) : list string :=
  match source l, target l with
  | Id s, Id t => [s; t]
  | Id s, Ref _ => [s]
  | Ref _, Id t => [t]
  | Ref _, Ref _ => []
  end.

(** A link both of whose ends are ids, as the declared type has them
    before the link force resolves them. *)
Definition parsed (l : DeveloperLink) : Prop :=
  exists s t, source l = Id s /\ target l = Id t.


(** ** The tabular loader *)

Module Csv.

(** The numbers [Number(text)] can give.  Text is a string of bytes; of
    the white space of the language the one-byte characters are
    recognised (tab, line feed, vertical tab, form feed, carriage return,
    space). *)
Inductive number :=
| NaN
| Infinity (negative : bool)
| Finite (q : Q).

(** A decoded cell: [null], a number, or text. *)
Inductive cell :=
| Null
| Number (n : number)
| Text (s : string).

Definition LF : ascii := ascii_of_nat 10.
Definition comma : ascii := ascii_of_nat 44.

(** [s.split(sep)] for a separator of one character: never empty. *)
Fixpoint split (sep : ascii) (s : string) : list string :=
  match s with
  | EmptyString => [EmptyString]
  | String c rest =>
      if Ascii.eqb c sep then EmptyString :: split sep rest
      else
        match split sep rest with
        | [] => [String c EmptyString]
        | h :: t => String c h :: t
        end
  end.

Definition is_space (c : ascii) : bool :=
  let n := nat_of_ascii c in
  (n =? 32)%nat || ((9 <=? n)%nat && (n <=? 13)%nat).

Fixpoint trim_start (s : string) : string :=
  match s with
  | EmptyString => EmptyString
  | String c rest => if is_space c then trim_start rest else s
  end.

(** [s.trim()] *)
Definition trim (s : string) : string :=
  String.rev (trim_start (String.rev (trim_start s))).

(** The value of a digit in a base up to 16. *)
Definition digit (base : Z) (c : ascii) : option Z :=
  let n := Z.of_nat (nat_of_ascii c) in
  let v :=
    if (48 <=? n)%Z && (n <=? 57)%Z then Some (n - 48)%Z
    else if (97 <=? n)%Z && (n <=? 102)%Z then Some (n - 87)%Z
    else if (65 <=? n)%Z && (n <=? 70)%Z then Some (n - 55)%Z
    else None in
  match v with
  | Some d => if (d <? base)%Z then Some d else None
  | None => None
  end.

(** The longest run of digits at the head of [s]: the value it adds to
    [acc], how many digits it has, and what follows it. *)
Fixpoint digits (base : Z) (s : string) (acc : Z) (count : nat) : Z * nat * string :=
  match s with
  | EmptyString => (acc, count, s)
  | String c rest =>
      match digit base c with
      | Some d => digits base rest (acc * base + d)%Z (S count)
      | None => (acc, count, s)
      end
  end.

(** [m * 10^e] *)
Definition scale10 (m e : Z) : Q :=
  if (0 <=? e)%Z then inject_Z (m * 10 ^ e) else Qmake m (Z.to_pos (10 ^ (- e))).

(** [SignedInteger]: digits with an optional sign, and nothing after. *)
Definition signed_integer (s : string) : option Z :=
  let '(negative, body) :=
    match s with
    | String "+" r => (false, r)
    | String "-" r => (true, r)
    | _ => (false, s)
    end in
  match digits 10 body 0 0 with
  | (_, O, _) => None
  | (v, S _, EmptyString) => Some (if negative then (- v)%Z else v)
  | (_, S _, String _ _) => None
  end.

(** [ExponentPart], when there is one; [None] when what follows the
    mantissa is neither empty nor an exponent. *)
Definition exponent (s : string) : option Z :=
  match s with
  | EmptyString => Some 0%Z
  | String "e" r | String "E" r => signed_integer r
  | String _ _ => None
  end.

(** [StrUnsignedDecimalLiteral] *)
Definition unsigned_decimal (s : string) : number :=
  if String.eqb s "Infinity" then Infinity false
  else
    let '(ip, n_ip, r1) := digits 10 s 0 0 in
    let '(m, n_fp, r2) :=
      match r1 with
      | String "." r => digits 10 r ip 0
      | _ => (ip, O, r1)
      end in
    match (n_ip + n_fp)%nat with
    | O => NaN
    | S _ =>
        match exponent r2 with
        | None => NaN
        | Some e => Finite (scale10 m (e - Z.of_nat n_fp))
        end
    end.

Definition negate (n : number) : number :=
  match n with
  | NaN => NaN
  | Infinity b => Infinity (negb b)
  | Finite q => Finite (- q)
  end.

(** [StrDecimalLiteral]: an optional sign before the unsigned literal. *)
Definition decimal (s : string) : number :=
  match s with
  | String "+" r => unsigned_decimal r
  | String "-" r => negate (unsigned_decimal r)
  | _ => unsigned_decimal s
  end.

(** [NonDecimalIntegerLiteral]: [0x], [0o], [0b] and digits of that base. *)
Definition non_decimal (s : string) : option number :=
  let literal base r :=
    match digits base r 0 0 with
    | (v, S _, EmptyString) => Some (Finite (inject_Z v))
    | _ => Some NaN
    end in
  match s with
  | String "0" (String "x" r) | String "0" (String "X" r) => literal 16%Z r
  | String "0" (String "o" r) | String "0" (String "O" r) => literal 8%Z r
  | String "0" (String "b" r) | String "0" (String "B" r) => literal 2%Z r
  | _ => None
  end.

(** [Number(text)]: white space is dropped at both ends, the empty text is
    0, and anything that is not a numeric literal is [NaN]. *)
Definition ToNumber (s : string) : number :=
  let t := trim s in
  if String.eqb t "" then Finite 0
  else
    match non_decimal t with
    | Some n => n
    | None => decimal t
    end.

Definition isNaN (n : number) : bool :=
  match n with
  | NaN => true
  | _ => false
  end.

(** [values[i] ? isNaN(Number(values[i])) ? values[i].trim() : Number(values[i]) : null]
    where [values[i]] is [undefined] past the end of the line. *)
Definition decode (value : option string) : cell :=
  match value with
  | None => Null
  | Some EmptyString => Null
  | Some v => if isNaN (ToNumber v) then Text (trim v) else Number (ToNumber v)
  end.

Definition is_null (c : cell) : bool :=
  match c with
  | Null => true
  | _ => false
  end.

(** [obj[key] = value] on an object that began as [{}].  [obj] holds the
    object's own properties and [inherits] says whether the object still
    has [Object.prototype] above it.  Every key becomes an own property,
    but ["__proto__"] while the object inherits: that assignment reaches
    the accessor of [Object.prototype], which makes no property; it takes
    the prototype away when the value is [null], and does nothing when
    the value is a number or a text. *)
Definition assign (key : string) (value : cell)
    (o : gmap string cell * bool) : gmap string cell * bool :=
  let '(obj, inherits) := o in
  if String.eqb key "__proto__" && inherits
  then (obj, negb (is_null value))
  else (<[key := value]> obj, inherits).

(** [headers.reduce((obj, header, i) => { obj[header.trim()] = ...; return obj; }, {})],
    from the header of index [i] on. *)
Fixpoint reduce_from (i : nat) (headers values : list string)
    (o : gmap string cell * bool) : gmap string cell * bool :=
  match headers with
  | [] => o
  | header :: rest =>
      reduce_from (S i) rest values (assign (trim header) (decode (values !! i)) o)
  end.

(** The record of one line: the own properties of the object built from
    [{}]. *)
Definition record_of (headers : list string) (line : string) : gmap string cell :=
  fst (reduce_from 0 headers (split comma line) (∅, true)).

(** [Object.values(row).some(val => val !== null)] *)
Definition has_value (row : gmap string cell) : bool :=
  existsb (fun kv => negb (is_null (snd kv))) (map_to_list row).

(** [lines.map(...).filter(...)] *)
Definition records (headers : list string) (lines : list string)
  : list (gmap string cell) :=
  List.filter has_value (map (record_of headers) lines).

(** [parseCSV]: the first line is the header, the others are the rows. *)
Definition parseCSV (csv : string) : list (gmap string cell) :=
  let lines := split LF csv in
  let headers := split comma (hd EmptyString lines) in
  records headers (tl lines).

(** A line none of whose cells, as far as the header reaches, holds a
    character. *)
Definition blank (headers : list string) (line : string) : Prop :=
  forall i v, (i < length headers)%nat -> split comma line !! i = Some v -> v = EmptyString.

End Csv.

(** ** Loading the two tables *)

(** How an awaited promise settles. *)
Inductive promise (A : Type) :=
| Resolved (v : A)
| Rejected (reason : exn).

Arguments Resolved {A} v.
Arguments Rejected {A} reason.

(** A [Response]: [fetch] resolves with one for every HTTP status, and the
    component reads nothing of it but the body, through [text()]. *)
Record response := mkResponse {
  ok : bool;
  text : promise string
}.

(** [Promise.all] of two promises: both values, or the reason of a
    rejected one (of either, when both are rejected: the one that
    settles first). *)
Inductive all2 {A B : Type} : promise A -> promise B -> promise (A * B) -> Prop :=
| all2_resolved a b : all2 (Resolved a) (Resolved b) (Resolved (a, b))
| all2_rejected_l reason q : all2 (Rejected reason) q (Rejected reason)
| all2_rejected_r p reason : all2 p (Rejected reason) (Rejected reason).

Abbreviation table := (list (gmap string Csv.cell)).

(** The state of the component: [data], [loading], and what was written
    with [console.error]. *)
Record component := mkComponent {
  data : option (table * table);
  loading : bool;
  console : list (string * exn)
}.

Definition initial : component :=
  {| data := None; loading := true; console := [] |}.

Definition console_error (msg : string) (e : exn) (c : component) : component :=
  {| data := data c; loading := loading c; console := console c ++ [(msg, e)] |}.

(** [setData({ nodes, links }); setLoading(false);] *)
Definition loaded (nodes links : table) (c : component) : component :=
  {| data := Some (nodes, links); loading := false; console := console c |}.

(** [loadData] of the typed variant, run on the initial state: the two
    fetches, the two bodies, [parseCSV] on each, then the state update;
    a rejection anywhere in the [try] block goes to
    [console.error('Error loading data:', error)]. *)
Inductive loadData (fetch_nodes fetch_links : promise response) : component -> Prop :=
| load_done r1 r2 t1 t2 :
    all2 fetch_nodes fetch_links (Resolved (r1, r2)) ->
    all2 (text r1) (text r2) (Resolved (t1, t2)) ->
    loadData fetch_nodes fetch_links
      (loaded (Csv.parseCSV t1) (Csv.parseCSV t2) initial)
| load_fetch_rejected reason :
    all2 fetch_nodes fetch_links (Rejected reason) ->
    loadData fetch_nodes fetch_links
      (console_error "Error loading data:" reason initial)
| load_text_rejected r1 r2 reason :
    all2 fetch_nodes fetch_links (Resolved (r1, r2)) ->
    all2 (text r1) (text r2) (Rejected reason) ->
    loadData fetch_nodes fetch_links
      (console_error "Error loading data:" reason initial).

(** The body a fetch ends up giving, if it gives one. *)
Definition body (f : promise response) : option string :=
  match f with
  | Resolved r =>
      match text r with
      | Resolved t => Some t
      | Rejected _ => None
      end
  | Rejected _ => None
  end.

(** What the component shows:
    [loading ? <div>Loading visualization...</div> : <svg ref={svgRef} />]. *)
Inductive view :=
| LoadingMessage
| Svg.

Definition render (c : component) : view :=
  if loading c then LoadingMessage else Svg.

(** The drawing effect starts with [if (!data || !svgRef.current) return;]
    and the [svg] element exists only when [loading] is false. *)
Definition draws (c : component) : bool :=
  match data c with
  | Some _ => negb (loading c)
  | None => false
  end.

(** Bodies for the examples: an error page, and a node table with Windows
    line ends and an empty line in the middle. *)
Definition not_found_page : response :=
  {| ok := false; text := Resolved "<html>404 Not Found</html>" |}.

Definition empty_page : response :=
  {| ok := true; text := Resolved "" |}.

Definition CR : string := String (ascii_of_nat 13) EmptyString.
Definition CRLF : string := CR +:+ String Csv.LF EmptyString.

Definition crlf_table : string :=
  "developer_id,betweenness" +:+ CRLF +:+ "a,1" +:+ CRLF +:+ CRLF +:+ "b,2" +:+ CRLF.

(** ** Further definitions: text *)

(** Whether a character occurs in a text. *)
Fixpoint occurs (c : ascii) (s : string) : bool :=
  match s with
  | EmptyString => false
  | String a rest => Ascii.eqb a c || occurs c rest
  end.

(** [pieces.join(sep)] for a separator of one character. *)
Fixpoint join (sep : ascii) (pieces : list string) : string :=
  match pieces with
  | [] => EmptyString
  | [p] => p
  | p :: rest => p +:+ String sep (join sep rest)
  end.

(** Dropping the leading characters that satisfy [f]. *)
Fixpoint skip (f : ascii -> bool) (l : list ascii) : list ascii :=
  match l with
  | [] => []
  | c :: rest => if f c then skip f rest else l
  end.

(** A line is blank for a header when none of the cells the header
    reaches holds a character; as a boolean. *)
Definition blankb (headers : list string) (line : string) : bool :=
  forallb (fun v => String.eqb v EmptyString)
          (take (length headers) (Csv.split Csv.comma line)).

(** A small node table as text, for the examples. *)
Definition table_text : string :=
  join Csv.LF ["developer_id, country ,betweenness"; "a,USA,0"; ""; "b, India ,10"; ",,"; "c"].

(** The character of a decimal digit, the text of a list of digits (most
    significant first) and the number it denotes. *)
Definition digit_char (d : nat) : ascii := ascii_of_nat (48 + d).

Fixpoint numeral (ds : list nat) : string :=
  match ds with
  | [] => EmptyString
  | d :: rest => String (digit_char d) (numeral rest)
  end.

Definition numeral_value (ds : list nat) : Z :=
  fold_left (fun a d => (a * 10 + Z.of_nat d)%Z) ds 0%Z.

(** ** Further definitions: what is drawn *)

Definition is_lower (c : ascii) : bool :=
  let n := nat_of_ascii c in (97 <=? n)%nat && (n <=? 122)%nat.

(** The element a [url(#id)] reference finds among the marker
    definitions. *)
Definition marker_named (id : string) : option marker :=
  List.find (fun m => String.eqb (marker_id m) id) markers.

(** The marker of an edge: the one its [marker-end] attribute names. *)
Definition edge_marker (d : DeveloperLink) : option marker :=
  marker_named ("arrow-" +:+ arrow_name (arrow_of_weight (weight d))).

(** [.attr('r', d => betweennessScale(d.betweenness))] *)
Definition circle_r (nodes : list DeveloperNode) (d : DeveloperNode) : Q :=
  betweennessScale nodes (betweenness d).

(** The box of the flag image: [x] and [y] are [-betweennessScale(d.betweenness)],
    [width] and [height] are [betweennessScale(d.betweenness) * 2]. *)
Record box := mkBox {
  box_x : Q;
  box_y : Q;
  box_width : Q;
  box_height : Q
}.

Definition image_box (nodes : list DeveloperNode) (d : DeveloperNode) : box :=
  {| box_x := - betweennessScale nodes (betweenness d);
     box_y := - betweennessScale nodes (betweenness d);
     box_width := betweennessScale nodes (betweenness d) * 2;
     box_height := betweennessScale nodes (betweenness d) * 2 |}.

(** [d3.forceCollide().radius(d => betweennessScale(d.betweenness) + 5)] *)
Definition collision_radius (nodes : list DeveloperNode) (d : DeveloperNode) : Q :=
  betweennessScale nodes (betweenness d) + 5.

(** ** Further definitions: ticks *)

(** What the forces of one tick do to a node object: they may write its
    position and velocity, none of them writes [fx] or [fy]. *)
Definition keeps_pin (force : DeveloperNode -> DeveloperNode) : Prop :=
  forall d, fx (force d) = fx d /\ fy (force d) = fy d.

(** A run of ticks seen from one node: in each tick the forces of that
    tick act on the node, then its position is updated. *)
Definition ticks (forces : list (DeveloperNode -> DeveloperNode)) (d : DeveloperNode)
  : DeveloperNode :=
  fold_left (fun d force => Force.integrate (force d)) forces d.

(** A force for the examples: a push that also shifts the node, as the
    centering force does. *)
Definition push (d : DeveloperNode) : DeveloperNode :=
  {| developer_id := developer_id d; country := country d;
     betweenness := betweenness d; in_degree := in_degree d;
     out_degree := out_degree d;
     x := x d - 1; y := y d + 1; vx := vx d + 2; vy := vy d - 2;
     fx := fx d; fy := fy d |}.
(** * Properties *)

(** ** Comparisons *)

Lemma js_ltb_lt (a b : Q) : Js.ltb a b = true <-> a < b.
Proof.
  unfold Js.ltb. rewrite negb_true_iff, <- not_true_iff_false, Qle_bool_iff.
  split; [apply Qnot_le_lt | apply Qlt_not_le].
Qed.

Lemma js_ltb_ge (a b : Q) : Js.ltb a b = false <-> b <= a.
Proof.
  unfold Js.ltb. rewrite negb_false_iff. apply Qle_bool_iff.
Qed.

Lemma js_leb_le (a b : Q) : Js.leb a b = true <-> a <= b.
Proof. apply Qle_bool_iff. Qed.

Lemma js_leb_gt (a b : Q) : Js.leb a b = false <-> b < a.
Proof.
  unfold Js.leb. rewrite <- not_true_iff_false, Qle_bool_iff.
  split; [apply Qnot_le_lt | apply Qlt_not_le].
Qed.

(** ** The running maximum of [d3.max] *)

Section MaxSpec.
Context {A : Type} (valueof : A -> Q).

Let step := fun (acc : option Q) (d : A) => D3.max_step acc (valueof d).

Lemma max_fold_from (l : list A) (a : Q) :
  exists m, fold_left step l (Some a) = Some m /\ a <= m /\
            Forall (fun d => valueof d <= m) l /\
            (m = a \/ Exists (fun d => m = valueof d) l).
Proof.
  revert a. induction l as [|d l IH]; intros a; simpl.
  - exists a. repeat split; auto. apply Qle_refl.
  - change (step (Some a) d) with (D3.max_step (Some a) (valueof d)). simpl.
    destruct (Js.ltb a (valueof d)) eqn:E.
    + apply js_ltb_lt in E. destruct (IH (valueof d)) as (m & Hm & Hle & Hall & Hin).
      exists m. repeat split; auto.
      * apply Qlt_le_weak. eapply Qlt_le_trans; eauto.
      * right. destruct Hin as [->|Hin]; [now left | now right].
    + apply js_ltb_ge in E. destruct (IH a) as (m & Hm & Hle & Hall & Hin).
      exists m. repeat split; auto.
      * constructor; auto. eapply Qle_trans; eauto.
      * destruct Hin as [->|Hin]; [now left | right; now right].
Qed.

Lemma max_spec (l : list A) (m : Q) :
  D3.max l valueof = Some m ->
  Forall (fun d => valueof d <= m) l /\ Exists (fun d => m = valueof d) l.
Proof.
  unfold D3.max. destruct l as [|d l]; simpl; [discriminate|].
  destruct (max_fold_from l (valueof d)) as (m' & Hm & Hle & Hall & Hin).
  fold step. rewrite Hm. intros [= <-]. split.
  - constructor; auto.
  - destruct Hin as [->|Hin]; [now left | now right].
Qed.

Lemma max_nonempty (l : list A) : l <> [] -> exists m, D3.max l valueof = Some m.
Proof.
  destruct l as [|d l]; [congruence|]. intros _.
  destruct (max_fold_from l (valueof d)) as (m & Hm & _). exists m. exact Hm.
Qed.

End MaxSpec.

(** ** Linear scales *)

Lemma bimap_increasing_domain d0 d1 r0 r1 v :
  d0 < d1 ->
  D3.bimap (d0, d1) (r0, r1) v == r0 + (r1 - r0) * ((v - d0) / (d1 - d0)).
Proof.
  intros Hd. unfold D3.bimap.
  assert (Js.ltb d1 d0 = false) as -> by (apply js_ltb_ge; lra).
  unfold D3.normalize, D3.interpolateNumber.
  destruct (Qeq_bool (d1 - d0) 0) eqn:E.
  - apply Qeq_bool_eq in E. lra.
  - apply Qeq_bool_neq in E. field. exact E.
Qed.

Lemma bimap_degenerate d0 d1 r0 r1 v :
  d0 == d1 ->
  D3.bimap (d0, d1) (r0, r1) v == (r0 + r1) / 2.
Proof.
  intros Hd. unfold D3.bimap.
  assert (Js.ltb d1 d0 = false) as -> by (apply js_ltb_ge; lra).
  unfold D3.normalize, D3.interpolateNumber, D3.constant.
  assert (Qeq_bool (d1 - d0) 0 = true) as -> by (apply Qeq_eq_bool; lra).
  field.
Qed.

Lemma linear_scale_endpoints d0 d1 r0 r1 :
  d0 < d1 ->
  D3.bimap (d0, d1) (r0, r1) d0 == r0 /\ D3.bimap (d0, d1) (r0, r1) d1 == r1.
Proof.
  intros Hd. rewrite !bimap_increasing_domain by exact Hd.
  split; field; lra.
Qed.

Lemma linear_scale_monotone d0 d1 r0 r1 u v :
  d0 < d1 -> r0 <= r1 -> u <= v ->
  D3.bimap (d0, d1) (r0, r1) u <= D3.bimap (d0, d1) (r0, r1) v.
Proof.
  intros Hd Hr Huv. rewrite !bimap_increasing_domain by exact Hd.
  assert (0 < / (d1 - d0)) as Hk by (apply Qinv_lt_0_compat; lra).
  unfold Qdiv. set (k := / (d1 - d0)) in *.
  assert (0 <= (r1 - r0) * ((v - u) * k)) as H.
  { apply Qmult_le_0_compat; [lra|]. apply Qmult_le_0_compat; lra. }
  lra.
Qed.

Lemma or_else_all_equal {A} (valueof : A -> Q) (l : list A) (c : Q) :
  Forall (fun d => valueof d == c) l ->
  Js.or_else (D3.max l valueof) c == c.
Proof.
  intros Hall. destruct (D3.max l valueof) as [m|] eqn:E; simpl; [|reflexivity].
  destruct (Qeq_bool m 0); [reflexivity|].
  apply max_spec in E as [_ Hex].
  rewrite Exists_exists in Hex. destruct Hex as (d & Hd & ->).
  rewrite Forall_forall in Hall. apply Hall, Hd.
Qed.

Lemma bimap_decreasing_domain d0 d1 r0 r1 v :
  d1 < d0 ->
  D3.bimap (d0, d1) (r0, r1) v == r1 + (r0 - r1) * ((v - d1) / (d0 - d1)).
Proof.
  intros Hd. unfold D3.bimap.
  assert (Js.ltb d1 d0 = true) as -> by (apply js_ltb_lt; exact Hd).
  unfold D3.normalize, D3.interpolateNumber.
  destruct (Qeq_bool (d0 - d1) 0) eqn:E.
  - apply Qeq_bool_eq in E. lra.
  - apply Qeq_bool_neq in E. field. exact E.
Qed.

(** The two ends of a domain that is not degenerate, whichever way round
    it is, are sent to the two ends of the range. *)
Lemma linear_scale_ends d0 d1 r0 r1 :
  ~ d0 == d1 ->
  D3.bimap (d0, d1) (r0, r1) d0 == r0 /\ D3.bimap (d0, d1) (r0, r1) d1 == r1.
Proof.
  intros Hd. destruct (Qlt_le_dec d0 d1) as [Hlt|Hge].
  - apply linear_scale_endpoints, Hlt.
  - assert (d1 < d0) as Hrev by (destruct (Qlt_le_dec d1 d0); [assumption | exfalso; apply Hd; lra]).
    rewrite !bimap_decreasing_domain by exact Hrev.
    split; field; lra.
Qed.

(** C1, as the spec has it, fails: a linear scale of the component can
    decrease.  In the edge table [light_links] (weights 1/2 and 1/4) the
    largest weight is 1/2, so the width domain is [[1, 1/2]]: the ends are
    still sent to 1 and 4, but the upper end 1/2 gets the width 4 and the
    lower end 1 the width 1, and of the table's own edges the lighter one
    (1/4) is drawn thicker (11/2) than the heavier one (4).  And on the
    doubles the radius scale of the example table (betweenness 0 and 10)
    gives the larger of two neighbouring inputs of its domain the smaller
    radius. *)
Lemma C1_linear_scale_can_decrease :
  Js.or_else (D3.max light_links weight) 1 == 1 # 2 /\
  edgeWeightScale light_links 1 == 1 /\
  edgeWeightScale light_links (1 # 2) == 4 /\
  (1 # 2 <= 1 /\ ~ edgeWeightScale light_links (1 # 2) <= edgeWeightScale light_links 1) /\
  edgeWeightScale light_links (1 # 4) == 11 # 2 /\
  (1 # 4 <= 1 # 2 /\
   ~ edgeWeightScale light_links (1 # 4) <= edgeWeightScale light_links (1 # 2)) /\
  Double.or_else (Double.max [0; 10]%float) 0%float = 10%float /\
  (0 <=? Double.lower_neighbour)%float = true /\
  (Double.lower_neighbour <? Double.upper_neighbour)%float = true /\
  (Double.upper_neighbour <=? 10)%float = true /\
  (Double.betweennessScale [0; 10]%float Double.upper_neighbour
   <? Double.betweennessScale [0; 10]%float Double.lower_neighbour)%float = true.
Proof.
  repeat split; try (vm_compute; reflexivity); try (vm_compute; discriminate);
    intros H; vm_compute in H; apply H; reflexivity.
Qed.

(** C1, amended.  For the two linear scales on a domain that is not
    degenerate ([inMax] is not [inMin], whichever is the larger), the end
    [inMin] is sent to [outMin] exactly and the end [inMax] to [outMax]
    exactly.  When [inMin < inMax], a value of the domain is sent into the
    output range, and the width scale never decreases over its domain.
    Nothing is said of the order of two radii of neighbouring inputs,
    which rounding decides, nor of a width domain the wrong way round,
    where the scale decreases.  On the node table
    [[{id:"a",betweenness:0},{id:"b",betweenness:10}]] the radius of [a]
    is 8 and the radius of [b] is 25. *)
Theorem C1_linear_scales_reach_range_ends_and_stay_in_range :
  (forall nodes : list DeveloperNode,
      ~ Js.or_else (D3.max nodes betweenness) 0 == 0 ->
      betweennessScale nodes 0 == 8 /\
      betweennessScale nodes (Js.or_else (D3.max nodes betweenness) 0) == 25) /\
  (forall links : list DeveloperLink,
      ~ Js.or_else (D3.max links weight) 1 == 1 ->
      edgeWeightScale links 1 == 1 /\
      edgeWeightScale links (Js.or_else (D3.max links weight) 1) == 4) /\
  (forall (nodes : list DeveloperNode) v,
      0 <= v -> v <= Js.or_else (D3.max nodes betweenness) 0 ->
      0 < Js.or_else (D3.max nodes betweenness) 0 ->
      8 <= betweennessScale nodes v /\ betweennessScale nodes v <= 25) /\
  (forall (links : list DeveloperLink) v,
      1 <= v -> v <= Js.or_else (D3.max links weight) 1 ->
      1 < Js.or_else (D3.max links weight) 1 ->
      1 <= edgeWeightScale links v /\ edgeWeightScale links v <= 4) /\
  (forall (links : list DeveloperLink) u v,
      1 <= u -> u <= v -> v <= Js.or_else (D3.max links weight) 1 ->
      edgeWeightScale links u <= edgeWeightScale links v) /\
  betweennessScale example_nodes (betweenness (row "a" 0)) == 8 /\
  betweennessScale example_nodes (betweenness (row "b" 10)) == 25.
Proof.
  split; [|split; [|split; [|split; [|split; [|split]]]]].
  - intros nodes Hmax.
    change (betweennessScale nodes)
      with (D3.bimap (0, Js.or_else (D3.max nodes betweenness) 0) (8, 25)).
    apply linear_scale_ends. intros H. apply Hmax. symmetry. exact H.
  - intros links Hmax.
    change (edgeWeightScale links)
      with (D3.bimap (1, Js.or_else (D3.max links weight) 1) (1, 4)).
    apply linear_scale_ends. intros H. apply Hmax. symmetry. exact H.
  - intros nodes v Hlo Hhi Hmax.
    change (betweennessScale nodes)
      with (D3.bimap (0, Js.or_else (D3.max nodes betweenness) 0) (8, 25)).
    destruct (linear_scale_endpoints 0 _ 8 25 Hmax) as [H0 H1].
    assert (8 <= 25) as Hr by lra.
    pose proof (linear_scale_monotone 0 _ 8 25 0 v Hmax Hr Hlo).
    pose proof (linear_scale_monotone 0 _ 8 25 v _ Hmax Hr Hhi).
    split; lra.
  - intros links v Hlo Hhi Hmax.
    change (edgeWeightScale links)
      with (D3.bimap (1, Js.or_else (D3.max links weight) 1) (1, 4)).
    destruct (linear_scale_endpoints 1 _ 1 4 Hmax) as [H0 H1].
    assert (1 <= 4) as Hr by lra.
    pose proof (linear_scale_monotone 1 _ 1 4 1 v Hmax Hr Hlo).
    pose proof (linear_scale_monotone 1 _ 1 4 v _ Hmax Hr Hhi).
    split; lra.
  - intros links u v Hlo Huv Hhi.
    change (edgeWeightScale links)
      with (D3.bimap (1, Js.or_else (D3.max links weight) 1) (1, 4)).
    destruct (Qlt_le_dec 1 (Js.or_else (D3.max links weight) 1)) as [Hlt|Hge].
    + apply linear_scale_monotone; [exact Hlt | lra | exact Huv].
    + rewrite !bimap_degenerate by lra. apply Qle_refl.
  - vm_compute. reflexivity.
  - vm_compute. reflexivity.
Qed.

(** The amended C1 on the example node table and on a two-edge table with
    weights 1 and 3. *)
Lemma C1_witness :
  (betweennessScale example_nodes 0 == 8 /\
   betweennessScale example_nodes (Js.or_else (D3.max example_nodes betweenness) 0) == 25) /\
  (edgeWeightScale [mkLink (Id "a") (Id "b") 1; mkLink (Id "b") (Id "a") 3] 1 == 1 /\
   edgeWeightScale [mkLink (Id "a") (Id "b") 1; mkLink (Id "b") (Id "a") 3]
     (Js.or_else (D3.max [mkLink (Id "a") (Id "b") 1; mkLink (Id "b") (Id "a") 3] weight) 1)
   == 4) /\
  (8 <= betweennessScale example_nodes 5 /\ betweennessScale example_nodes 5 <= 25).
Proof.
  split; [|split].
  - apply (proj1 C1_linear_scales_reach_range_ends_and_stay_in_range example_nodes).
    vm_compute. discriminate.
  - apply (proj1 (proj2 C1_linear_scales_reach_range_ends_and_stay_in_range)
             [mkLink (Id "a") (Id "b") 1; mkLink (Id "b") (Id "a") 3]).
    vm_compute. discriminate.
  - apply (proj1 (proj2 (proj2 C1_linear_scales_reach_range_ends_and_stay_in_range))
             example_nodes 5); vm_compute; (discriminate || reflexivity).
Defined.

(** C2, as the spec has it, fails: on a degenerate domain the radius
    scale does not return 8 and the width scale does not return 1.  A node
    table whose only betweenness is 0 gives the radius 16.5, and an edge
    table whose only weight is 1 gives the width 2.5. *)
Lemma C2_degenerate_scale_is_not_outMin :
  Js.or_else (D3.max [row "a" 0] betweenness) 0 == 0 /\
  betweennessScale [row "a" 0] 0 == 33 # 2 /\
  ~ betweennessScale [row "a" 0] 0 == 8 /\
  Js.or_else (D3.max [mkLink (Id "a") (Id "a") 1] weight) 1 == 1 /\
  edgeWeightScale [mkLink (Id "a") (Id "a") 1] 1 == 5 # 2 /\
  ~ edgeWeightScale [mkLink (Id "a") (Id "a") 1] 1 == 1.
Proof.
  repeat split; try (vm_compute; reflexivity); vm_compute; discriminate.
Qed.

(** C2, amended.  On a degenerate domain ([inMax == inMin]: the radius
    domain is [[0, 0]], the width domain is [[1, 1]]) the scale is total
    and constant: it returns the midpoint of its output range for every
    input, 16.5 for the radius and 2.5 for the width.  The all-zero node
    table and the empty tables are such cases. *)
Theorem C2_degenerate_scale_is_constant_midpoint :
  (forall (nodes : list DeveloperNode) v,
      Js.or_else (D3.max nodes betweenness) 0 == 0 ->
      betweennessScale nodes v == 33 # 2) /\
  (forall (links : list DeveloperLink) v,
      Js.or_else (D3.max links weight) 1 == 1 ->
      edgeWeightScale links v == 5 # 2) /\
  (forall (nodes : list DeveloperNode) v,
      Forall (fun d => betweenness d == 0) nodes ->
      betweennessScale nodes v == 33 # 2) /\
  (forall v, betweennessScale [] v == 33 # 2 /\ edgeWeightScale [] v == 5 # 2).
Proof.
  assert (forall (nodes : list DeveloperNode) v,
             Js.or_else (D3.max nodes betweenness) 0 == 0 ->
             betweennessScale nodes v == 33 # 2) as Hr.
  { intros nodes v Hd.
    change (betweennessScale nodes v)
      with (D3.bimap (0, Js.or_else (D3.max nodes betweenness) 0) (8, 25) v).
    rewrite bimap_degenerate by (symmetry; exact Hd). reflexivity. }
  assert (forall (links : list DeveloperLink) v,
             Js.or_else (D3.max links weight) 1 == 1 ->
             edgeWeightScale links v == 5 # 2) as Hw.
  { intros links v Hd.
    change (edgeWeightScale links v)
      with (D3.bimap (1, Js.or_else (D3.max links weight) 1) (1, 4) v).
    rewrite bimap_degenerate by (symmetry; exact Hd). reflexivity. }
  split; [exact Hr | split; [exact Hw | split]].
  - intros nodes v Hall. apply Hr. now apply or_else_all_equal.
  - intros v. split; [apply Hr | apply Hw]; reflexivity.
Qed.

(** The hypotheses of the amended C2 hold on the all-zero table of two
    nodes. *)
Lemma C2_witness :
  betweennessScale [row "a" 0; row "b" 0] 7 == 33 # 2.
Proof.
  apply (proj1 C2_degenerate_scale_is_constant_midpoint [row "a" 0; row "b" 0] 7).
  vm_compute. reflexivity.
Defined.

(** ** Arrowhead markers *)

(** C4.  The arrowhead of an edge is decided by its weight alone, in three
    classes that cover every weight and exclude one another:
    [weight <= 2] is "small", [2 < weight <= 4] is "medium",
    [4 < weight] is "large"; 2 and 4 belong to the lower class.  The
    [marker-end] attribute is [url(#arrow-small)] exactly for the first
    class, [url(#arrow-medium)] exactly for the second and
    [url(#arrow-large)] exactly for the third.  The
    attribute names a marker that is defined, and it does not look at the
    stroke width the edge table gives the same weight: an edge of weight
    3 keeps the "medium" marker while its stroke width is 4 in one edge
    table and 2.5 in another. *)
Theorem C4_arrowhead_is_a_three_way_split_of_weight (d : DeveloperLink) :
  (arrow_of_weight (weight d) = small <-> weight d <= 2) /\
  (arrow_of_weight (weight d) = medium <-> 2 < weight d /\ weight d <= 4) /\
  (arrow_of_weight (weight d) = large <-> 4 < weight d) /\
  (marker_end d = "url(#arrow-small)" <-> weight d <= 2) /\
  (marker_end d = "url(#arrow-medium)" <-> 2 < weight d /\ weight d <= 4) /\
  (marker_end d = "url(#arrow-large)" <-> 4 < weight d) /\
  arrow_of_weight 2 = small /\ arrow_of_weight 4 = medium /\
  marker_end d = "url(#arrow-" +:+ arrow_name (arrow_of_weight (weight d)) +:+ ")" /\
  (exists m, m ∈ markers /\ marker_end d = "url(#" +:+ marker_id m +:+ ")") /\
  (forall d' : DeveloperLink, weight d' == weight d -> marker_end d' = marker_end d) /\
  (stroke_width [mkLink (Id "a") (Id "b") 1; mkLink (Id "b") (Id "a") 3]
                (mkLink (Id "b") (Id "a") 3) == 4 /\
   stroke_width [mkLink (Id "a") (Id "b") 1; mkLink (Id "b") (Id "a") 3;
                 mkLink (Id "a") (Id "a") 5]
                (mkLink (Id "b") (Id "a") 3) == 5 # 2 /\
   marker_end (mkLink (Id "b") (Id "a") 3) = "url(#arrow-medium)").
Proof.
  assert (forall w, (arrow_of_weight w = small <-> w <= 2) /\
                    (arrow_of_weight w = medium <-> 2 < w /\ w <= 4) /\
                    (arrow_of_weight w = large <-> 4 < w)) as Hsplit.
  { intros w. unfold arrow_of_weight.
    destruct (Js.leb w 2) eqn:E2; [apply js_leb_le in E2 | apply js_leb_gt in E2];
      (destruct (Js.leb w 4) eqn:E4; [apply js_leb_le in E4 | apply js_leb_gt in E4]);
      (split; [|split]); split; intros H;
      try discriminate; try reflexivity; try lra; try (destruct H; lra). }
  destruct (Hsplit (weight d)) as (Hs & Hm & Hl).
  split; [exact Hs|]. split; [exact Hm|]. split; [exact Hl|].
  assert (forall a, marker_end d = "url(#arrow-" +:+ arrow_name a +:+ ")"
                    <-> arrow_of_weight (weight d) = a) as Hname.
  { intros a. unfold marker_end.
    destruct (arrow_of_weight (weight d)), a; simpl;
      split; intros H; reflexivity || discriminate. }
  split; [rewrite <- Hs; apply (Hname small)|].
  split; [rewrite <- Hm; apply (Hname medium)|].
  split; [rewrite <- Hl; apply (Hname large)|].
  do 3 (split; [reflexivity|]). split; [|split].
  - unfold marker_end. destruct (arrow_of_weight (weight d)).
    + exists (marker_of 0 small). split; [|reflexivity]. unfold markers; simpl. repeat constructor.
    + exists (marker_of 1 medium). split; [|reflexivity]. unfold markers; simpl. repeat constructor.
    + exists (marker_of 2 large). split; [|reflexivity]. unfold markers; simpl. repeat constructor.
  - intros d' Hw. unfold marker_end. f_equal. f_equal. f_equal.
    unfold arrow_of_weight, Js.leb.
    assert (forall c, Qle_bool (weight d') c = Qle_bool (weight d) c) as Hc.
    { intros c. apply eq_true_iff_eq. rewrite !Qle_bool_iff, Hw. reflexivity. }
    rewrite !Hc. reflexivity.
  - repeat split; vm_compute; reflexivity.
Qed.

(** ** Country codes *)

Lemma getCountryCode_unmapped (c : string) :
  countryMap !! c = None -> Object.prototype !! c = None ->
  getCountryCode c = Object.Str "UN".
Proof.
  intros Hown Hproto. unfold getCountryCode, Object.or_else, Object.get.
  rewrite Hown, Hproto. reflexivity.
Qed.

Lemma getCountryCode_Tuvalu : getCountryCode "Tuvalu" = Object.Str "UN".
Proof. apply getCountryCode_unmapped; vm_compute; reflexivity. Qed.

Lemma flag_href_alias (d : DeveloperNode) :
  country d = "United States" ->
  flag_country d = "USA" /\ flag_href d = inr "https://flagcdn.com/w40/us.png".
Proof.
  intros Hc. unfold flag_href, flag_country. rewrite Hc. simpl.
  split; [reflexivity|]. vm_compute. reflexivity.
Qed.

(** Every name that is neither a key of the table nor an inherited
    property name gets "UN", and every key of the table gets its code. *)
Lemma getCountryCode_mapped (c code : string) :
  countryMap !! c = Some code -> getCountryCode c = Object.Str code.
Proof.
  intros Hc. unfold getCountryCode, Object.or_else, Object.get. rewrite Hc.
  apply elem_of_list_to_map_2 in Hc.
  repeat (apply elem_of_cons in Hc as [[= -> ->]|Hc]; [reflexivity|]).
  apply elem_of_nil in Hc. destruct Hc.
Qed.

(** C9 at a failing input.  "constructor" is not a key of the static
    table, yet the lookup finds the property every object literal
    inherits and returns a function, not "UN"; the [toLowerCase] call on
    it then raises.  The same happens for each inherited name. *)
Theorem C9_inherited_name_escapes_the_fallback :
  countryMap !! "constructor" = None /\
  getCountryCode "constructor" = Object.Function "Object" /\
  getCountryCode "constructor" <> Object.Str "UN" /\
  flag_href (mkNode "d1" "constructor" 0 0 0 0 0 0 0 None None)
  = inl (TypeError "getCountryCode(...).toLowerCase is not a function") /\
  (forall c v, Object.prototype !! c = Some v ->
               countryMap !! c = None /\ getCountryCode c = v /\ v <> Object.Str "UN").
Proof.
  split; [vm_compute; reflexivity|].
  split; [vm_compute; reflexivity|].
  split; [vm_compute; discriminate|].
  split; [vm_compute; reflexivity|].
  intros c v Hc.
  apply elem_of_list_to_map_2 in Hc.
  repeat (apply elem_of_cons in Hc as [[= -> ->]|Hc];
          [split; [vm_compute; reflexivity|split; [vm_compute; reflexivity|discriminate]]|]).
  apply elem_of_nil in Hc. destruct Hc.
Qed.

(** ** Drag *)

Lemma set_pin_set_pin (a b a' b' : option Q) (d : DeveloperNode) :
  set_pin a' b' (set_pin a b d) = set_pin a' b' d.
Proof. reflexivity. Qed.

(** Between press and release, whatever the moves, node [i] is the node
    that was pressed, with some pin. *)
Lemma moves_keep_node (i : nat) (d : DeveloperNode) (path : list (Q * Q)) (p : page) :
  (exists a b, nodes_of p !! i = Some (set_pin a b d)) ->
  exists a b,
    nodes_of (run (map (fun '(a, b) => Move i a b) path) p) !! i
    = Some (set_pin a b d).
Proof.
  revert p. induction path as [|[u v] path IH]; intros p (a & b & Hp); simpl.
  - eauto.
  - apply IH. unfold on_node. rewrite Hp. simpl.
    exists (Some u), (Some v).
    rewrite list_lookup_insert_eq; [reflexivity|].
    eapply lookup_lt_Some; eauto.
Qed.

(** C6.  The three drag listeners and the pin.  On drag-start [fx], [fy]
    become the node's current [x], [y]; on each drag-move they become the
    position the event reports; on drag-end both are cleared.  The
    listeners write nothing else on the node.  While pinned, a simulation
    tick puts the node on the pin and stops it; after release the tick
    moves it by its own velocity again.  A whole drag of a node (press,
    any moves, release) leaves exactly the node that was pressed, unpinned. *)
Theorem C6_drag_sets_the_pin_and_release_clears_it
    (event : DragEvent) (s : simulation) (d : DeveloperNode) :
  snd (dragstarted event s d) = set_pin (Some (x d)) (Some (y d)) d /\
  fx (snd (dragstarted event s d)) = Some (x d) /\
  fy (snd (dragstarted event s d)) = Some (y d) /\
  snd (dragged event s d) = set_pin (Some (event_x event)) (Some (event_y event)) d /\
  fx (snd (dragged event s d)) = Some (event_x event) /\
  fy (snd (dragged event s d)) = Some (event_y event) /\
  fx (snd (dragended event s d)) = None /\
  fy (snd (dragended event s d)) = None /\
  x (Force.integrate (snd (dragged event s d))) = event_x event /\
  y (Force.integrate (snd (dragged event s d))) = event_y event /\
  vx (Force.integrate (snd (dragged event s d))) = 0 /\
  vy (Force.integrate (snd (dragged event s d))) = 0 /\
  x (Force.integrate (snd (dragended event s d))) = x d + vx d * Force.velocityDecay /\
  y (Force.integrate (snd (dragended event s d))) = y d + vy d * Force.velocityDecay /\
  (forall (p : page) (i : nat) (path : list (Q * Q)) (px py : Q),
      nodes_of p !! i = Some d ->
      nodes_of (run (drag_once i path px py) p) !! i = Some (set_pin None None d)).
Proof.
  repeat (split; [reflexivity|]).
  intros p i path px py Hi. unfold drag_once, run.
  cbn [fold_left]. rewrite fold_left_app. cbn [fold_left dispatch]. rewrite Hi.
  set (p1 := on_node i _ _ p).
  assert (exists a b, nodes_of p1 !! i = Some (set_pin a b d)) as H1.
  { subst p1. unfold on_node. rewrite Hi. simpl. exists (Some (x d)), (Some (y d)).
    rewrite list_lookup_insert_eq; [reflexivity|]. eapply lookup_lt_Some; eauto. }
  destruct (moves_keep_node i d path p1 H1) as (a & b & H2).
  unfold run in H2. unfold on_node. rewrite H2. simpl.
  rewrite list_lookup_insert_eq; [reflexivity|]. eapply lookup_lt_Some; eauto.
Qed.

(** ** Re-heating *)

Lemma on_node_sim_gestures (i n : nat) listener (p : page) (d : DeveloperNode) :
  nodes_of p !! i = Some d ->
  gestures (on_node i n listener p) = n /\
  sim (on_node i n listener p) = fst (listener (sim p) d) /\
  length (nodes_of (on_node i n listener p)) = length (nodes_of p).
Proof.
  intros Hi. unfold on_node. rewrite Hi. destruct (listener (sim p) d) as [s' d'].
  simpl. rewrite length_insert. auto.
Qed.





(** One whole drag of node 0 on [page0] leaves it unpinned. *)
Lemma C6_witness :
  nodes_of (run (drag_once 0 [(3, 4); (5, 6)] 5 6) page0) !! 0%nat
  = Some (set_pin None None (row "a" 0)).
Proof.
  apply (proj2 (proj2 (proj2 (proj2 (proj2 (proj2 (proj2 (proj2 (proj2 (proj2
          (proj2 (proj2 (proj2 (proj2
            (C6_drag_sets_the_pin_and_release_clears_it
               (mkDragEvent 0 0 0) (sim page0) (row "a" 0)))))))))))))))).
  reflexivity.
Defined.

(** ** Link resolution *)





(** The outcome of the loop over parsed links: either the exception for an
    id some link carries and the map does not have, or every link with
    both ends turned into references the map gave. *)
Lemma initialize_links_spec (byId : gmap string nat) (links : list DeveloperLink) :
  Forall parsed links ->
  match ForceLink.initialize_links byId links with
  | inl err =>
      exists l z, l ∈ links /\ z ∈ endpoint_ids l /\ byId !! z = None /\
                  err = Error ("node not found: " +:+ z)
  | inr links' =>
      Forall (fun l => forall z, z ∈ endpoint_ids l -> is_Some (byId !! z)) links /\
      Forall2 (fun l l' =>
                 weight l' = weight l /\
                 exists s t i j, source l = Id s /\ target l = Id t /\
                                 byId !! s = Some i /\ byId !! t = Some j /\
                                 source l' = Ref i /\ target l' = Ref j)
              links links'
  end.
Proof.
  induction 1 as [|l links (s & t & Hs & Ht) Hall IH]; simpl.
  - split; constructor.
  - rewrite Hs, Ht. unfold ForceLink.resolve, ForceLink.find.
    assert (endpoint_ids l = [s; t]) as Hids by (unfold endpoint_ids; now rewrite Hs, Ht).
    destruct (byId !! s) as [i|] eqn:Ei.
    2:{ exists l, s. rewrite Hids.
        split; [apply list_elem_of_here|]. split; [apply list_elem_of_here|]. auto. }
    destruct (byId !! t) as [j|] eqn:Ej.
    2:{ exists l, t. rewrite Hids.
        split; [apply list_elem_of_here|].
        split; [apply list_elem_of_further, list_elem_of_here|]. auto. }
    destruct (ForceLink.initialize_links byId links) as [err|links'].
    + destruct IH as (l0 & z & Hl0 & Hz & Hnone & ->).
      exists l0, z. split; [now apply list_elem_of_further|]. auto.
    + destruct IH as [IH1 IH2]. split; constructor; auto.
      * intros z Hz. rewrite Hids in Hz.
        apply elem_of_cons in Hz as [->|Hz]; [eauto|].
        apply elem_of_cons in Hz as [->|Hz]; [eauto|].
        apply elem_of_nil in Hz. destruct Hz.
      * simpl. split; [reflexivity|]. exists s, t, i, j.
        repeat split; assumption || reflexivity.
Qed.


Example createVisualization_absent_target :
  createVisualization example_nodes [mkLink (Id "a") (Id "z") 1]
  = inl (Error "node not found: z").
Proof. vm_compute. reflexivity. Qed.


(** ** Edge paths *)

(** The rendered radius of a node of the table with a betweenness that is
    not negative lies in the output range. *)
Lemma radius_bounds (nodes : list DeveloperNode) (s : DeveloperNode) :
  s ∈ nodes -> 0 <= betweenness s ->
  8 <= betweennessScale nodes (betweenness s) /\
  betweennessScale nodes (betweenness s) <= 25.
Proof.
  intros Hin Hb.
  change (betweennessScale nodes (betweenness s))
    with (D3.bimap (0, Js.or_else (D3.max nodes betweenness) 0) (8, 25) (betweenness s)).
  destruct (D3.max nodes betweenness) as [m|] eqn:Emax.
  - destruct (max_spec betweenness nodes m Emax) as [Hle _].
    rewrite Forall_forall in Hle.
    specialize (Hle s Hin). simpl in Hle. unfold Js.or_else.
    destruct (Qeq_bool m 0) eqn:Em.
    + rewrite bimap_degenerate by reflexivity. split; vm_compute; discriminate.
    + apply Qeq_bool_neq in Em.
      assert (0 < m) as Hm by lra.
      destruct (linear_scale_endpoints 0 m 8 25 Hm) as [H0 H1].
      assert (8 <= 25) as Hr by lra.
      pose proof (linear_scale_monotone 0 m 8 25 0 (betweenness s) Hm Hr Hb) as Hlo.
      pose proof (linear_scale_monotone 0 m 8 25 (betweenness s) m Hm Hr Hle) as Hhi.
      split; lra.
  - destruct (max_nonempty betweenness nodes) as [m Hm]; [|congruence].
    intros ->. apply elem_of_nil in Hin. exact Hin.
Qed.

Lemma Q2R_square_sum (a b : Q) :
  Q2R (a * a + b * b) = (Q2R a * Q2R a + Q2R b * Q2R b)%R.
Proof. rewrite Q2R_plus, !Q2R_mult. reflexivity. Qed.

(** C5.  The path of a resolved edge, on the current node positions.
    - Source and target have the same id: the path starts at
      [(x - r, y)], goes by an arc of radius [r] to [(x + r, y)] and by a
      second arc of radius [r] back to where it started, where [(x, y)]
      is the node's position and [r] its rendered radius; for a node of
      the table whose betweenness is not negative [r] is at least 8, so
      the loop is not of length zero.
    - The ids differ: the path is one arc from the source position to the
      target position whose two radii are twice the Euclidean distance of
      the two positions. *)
Theorem C5_self_edge_is_a_loop_and_other_edges_are_arcs
    (nodes : list DeveloperNode) (d : DeveloperLink) (i j : nat) (s t : DeveloperNode) :
  source d = Ref i -> target d = Ref j ->
  nodes !! i = Some s -> nodes !! j = Some t ->
  (developer_id s = developer_id t ->
   forall r, r = betweennessScale nodes (betweenness s) ->
   link_path nodes d
   = Some [MoveTo (x s - r) (y s);
           ArcBy (Rat r) (Rat r) 0 true true (r * 2) 0;
           ArcBy (Rat r) (Rat r) 0 true true (- r * 2) 0] /\
   (exists path p0 p1 p2,
       link_path nodes d = Some path /\ walk (0, 0) path = [p0; p1; p2] /\
       same_point p0 (x s - r, y s) /\ same_point p1 (x s + r, y s) /\
       same_point p2 p0) /\
   (0 <= betweenness s ->
    8 <= r /\ r <= 25 /\ ~ same_point (x s + r, y s) (x s - r, y s))) /\
  (developer_id s <> developer_id t ->
   exists dr,
     link_path nodes d
     = Some [MoveTo (x s) (y s); ArcTo dr dr 0 false true (x t) (y t)] /\
     extent_val dr = (2 * euclid (x s, y s) (x t, y t))%R).
Proof.
  intros Hs Ht Hi Hj. unfold link_path. rewrite Hs, Ht. simpl. rewrite Hi, Hj.
  split.
  - intros Hid r ->. rewrite Hid, String.eqb_refl.
    split; [reflexivity|]. split.
    + eexists _, _, _, _. split; [reflexivity|]. split; [reflexivity|].
      unfold same_point; simpl. repeat split; ring.
    + intros Hb.
      destruct (radius_bounds nodes s) as [H8 H25]; auto.
      { apply list_elem_of_lookup. eauto. }
      repeat split; auto. unfold same_point; simpl. intros [H _]. lra.
  - intros Hid. apply String.eqb_neq in Hid. rewrite Hid.
    eexists. split; [reflexivity|].
    unfold extent_val, euclid. simpl.
    rewrite Q2R_square_sum, !Q2R_minus. ring.
Qed.

(** A two-node page with a self-edge on the first node and an edge
    between the two, for the hypotheses of C5. *)
Lemma C5_witness :
  link_path [mkNode "a" "USA" 0 0 0 3 4 0 0 None None;
             mkNode "b" "India" 10 0 0 6 8 0 0 None None]
            (mkLink (Ref 0) (Ref 1) 1)
  <> None.
Proof.
  destruct (C5_self_edge_is_a_loop_and_other_edges_are_arcs
              [mkNode "a" "USA" 0 0 0 3 4 0 0 None None;
               mkNode "b" "India" 10 0 0 6 8 0 0 None None]
              (mkLink (Ref 0) (Ref 1) 1) 0 1
              (mkNode "a" "USA" 0 0 0 3 4 0 0 None None)
              (mkNode "b" "India" 10 0 0 6 8 0 0 None None)
              eq_refl eq_refl eq_refl eq_refl) as [_ Harc].
  destruct (Harc ltac:(simpl; discriminate)) as (dr & Hp & _).
  rewrite Hp. discriminate.
Defined.

(** ** Loading *)

Lemma all2_resolved_inv {A B : Type} (p : promise A) (q : promise B) (a : A) (b : B) :
  all2 p q (Resolved (a, b)) -> p = Resolved a /\ q = Resolved b.
Proof. inversion 1; subst; auto. Qed.

Lemma all2_rejected_inv {A B : Type} (p : promise A) (q : promise B) (reason : exn) :
  all2 p q (Rejected reason) -> p = Rejected reason \/ q = Rejected reason.
Proof. inversion 1; subst; auto. Qed.

Lemma all2_total {A B : Type} (p : promise A) (q : promise B) :
  exists r, all2 p q r.
Proof.
  destruct p as [a|e]; [destruct q as [b|e]|]; eexists; constructor.
Qed.

Lemma loadData_total (f1 f2 : promise response) : exists c, loadData f1 f2 c.
Proof.
  destruct f1 as [r1|e1].
  2:{ eexists. apply load_fetch_rejected. apply all2_rejected_l. }
  destruct f2 as [r2|e2].
  2:{ eexists. apply load_fetch_rejected. apply all2_rejected_r. }
  destruct (text r1) as [t1|e1] eqn:E1.
  2:{ eexists. eapply load_text_rejected; [apply all2_resolved|].
      rewrite E1. apply all2_rejected_l. }
  destruct (text r2) as [t2|e2] eqn:E2.
  2:{ eexists. eapply load_text_rejected; [apply all2_resolved|].
      rewrite E2. apply all2_rejected_r. }
  eexists. eapply load_done; [apply all2_resolved|].
  rewrite E1, E2. apply all2_resolved.
Qed.

(** The three ways [loadData] can end, read off the two fetches. *)
Lemma loadData_cases (f1 f2 : promise response) (c : component) :
  loadData f1 f2 c ->
  (exists t1 t2, body f1 = Some t1 /\ body f2 = Some t2 /\
                 c = loaded (Csv.parseCSV t1) (Csv.parseCSV t2) initial) \/
  ((body f1 = None \/ body f2 = None) /\
   exists reason, c = console_error "Error loading data:" reason initial).
Proof.
  intros H. inversion H as [r1 r2 t1 t2 Hf Ht|reason Hf|r1 r2 reason Hf Ht]; subst.
  - left. apply all2_resolved_inv in Hf as [-> ->].
    apply all2_resolved_inv in Ht as [Ht1 Ht2].
    exists t1, t2. unfold body. rewrite Ht1, Ht2. auto.
  - right. split; [|eauto].
    apply all2_rejected_inv in Hf as [->| ->]; simpl; auto.
  - right. split; [|eauto].
    apply all2_resolved_inv in Hf as [-> ->].
    apply all2_rejected_inv in Ht as [Ht|Ht]; unfold body; rewrite Ht; auto.
Qed.

(** C7, as the spec has it, fails for a resource that cannot be parsed:
    the loader has no such case.  Whatever the two bodies are, once both
    were read the loading flag is cleared and nothing is logged; so it is
    for an error page (fetched with a status that is not ok) as the node
    table and an empty body as the edge table, which load as two empty
    tables. *)
Lemma C7_unparsable_body_is_not_a_load_error :
  (forall (r1 r2 : response) (t1 t2 : string) (c : component),
      text r1 = Resolved t1 -> text r2 = Resolved t2 ->
      loadData (Resolved r1) (Resolved r2) c ->
      loading c = false /\ console c = [] /\ render c = Svg /\
      data c = Some (Csv.parseCSV t1, Csv.parseCSV t2)) /\
  loadData (Resolved not_found_page) (Resolved empty_page)
           {| data := Some ([], []); loading := false; console := [] |}.
Proof.
  split.
  - intros r1 r2 t1 t2 c H1 H2 H.
    apply loadData_cases in H as [(u1 & u2 & Hu1 & Hu2 & ->)|[[Hn|Hn] _]];
      unfold body in *; rewrite ?H1, ?H2 in *; try discriminate.
    injection Hu1 as <-. injection Hu2 as <-. auto.
  - apply (load_done _ _ not_found_page empty_page
             "<html>404 Not Found</html>" ""); constructor.
Qed.

(** C7, amended.  [loadData] always ends.  When a fetch or the reading of
    a body is rejected, the rejection is logged as "Error loading data:",
    [loading] stays true, [data] stays empty, the loading message is
    shown and the drawing effect draws nothing.  [loading] is cleared
    only after both bodies were read, and then [data] holds the two
    parsed tables and nothing was logged; the parser takes every text, so
    two bodies that were read always end in that state. *)
Theorem C7_rejected_load_is_logged_and_keeps_loading (f1 f2 : promise response) :
  (exists c, loadData f1 f2 c) /\
  (forall c, loadData f1 f2 c ->
     ((body f1 = None \/ body f2 = None) ->
      loading c = true /\ data c = None /\
      render c = LoadingMessage /\ draws c = false /\
      exists reason, console c = [("Error loading data:", reason)]) /\
     (loading c = false ->
      exists t1 t2, body f1 = Some t1 /\ body f2 = Some t2 /\
                    data c = Some (Csv.parseCSV t1, Csv.parseCSV t2) /\
                    console c = []) /\
     (forall t1 t2, body f1 = Some t1 -> body f2 = Some t2 ->
                    c = loaded (Csv.parseCSV t1) (Csv.parseCSV t2) initial)).
Proof.
  split; [apply loadData_total|].
  intros c H.
  apply loadData_cases in H as [(t1 & t2 & H1 & H2 & ->)|[Hn (reason & ->)]].
  - split; [|split].
    + intros [Hn|Hn]; congruence.
    + intros _. exists t1, t2. auto.
    + intros u1 u2 Hu1 Hu2. congruence.
  - split; [|split].
    + intros _. repeat split; eauto.
    + simpl. discriminate.
    + intros u1 u2 Hu1 Hu2. destruct Hn; congruence.
Qed.

(** The node file cannot be fetched: the run that logs the rejection is a
    run of [loadData], and C7 gives its state. *)
Lemma C7_witness :
  loading (console_error "Error loading data:" (TypeError "Failed to fetch") initial)
  = true.
Proof.
  apply (proj2 (C7_rejected_load_is_logged_and_keeps_loading
                  (Rejected (TypeError "Failed to fetch")) (Resolved empty_page))
               (console_error "Error loading data:" (TypeError "Failed to fetch") initial)).
  - apply load_fetch_rejected. apply all2_rejected_l.
  - left. reflexivity.
Defined.

(** ** The tabular parser *)

(** How a cell is decoded. *)
Lemma decode_spec (v : string) :
  Csv.decode None = Csv.Null /\
  Csv.decode (Some EmptyString) = Csv.Null /\
  (v <> EmptyString ->
   (Csv.ToNumber v <> Csv.NaN -> Csv.decode (Some v) = Csv.Number (Csv.ToNumber v)) /\
   (Csv.ToNumber v = Csv.NaN -> Csv.decode (Some v) = Csv.Text (Csv.trim v))).
Proof.
  split; [reflexivity|]. split; [reflexivity|].
  intros Hv. destruct v as [|c v]; [congruence|]. unfold Csv.decode.
  split; intros H.
  - destruct (Csv.ToNumber (String c v)); [congruence | reflexivity | reflexivity].
  - rewrite H. reflexivity.
Qed.

(** An assignment leaves the other keys alone, and under any key but
    ["__proto__"] it makes an own property. *)
Lemma assign_other (key : string) (value : Csv.cell)
    (o : gmap string Csv.cell * bool) (k : string) :
  k <> key -> fst (Csv.assign key value o) !! k = fst o !! k.
Proof.
  intros Hne. destruct o as [obj inherits]. unfold Csv.assign.
  destruct (String.eqb key "__proto__" && inherits); simpl; [reflexivity|].
  apply lookup_insert_ne. congruence.
Qed.

Lemma assign_own (key : string) (value : Csv.cell) (o : gmap string Csv.cell * bool) :
  key <> "__proto__" ->
  Csv.assign key value o = (<[key := value]> (fst o), snd o).
Proof.
  intros Hne. destruct o as [obj inherits]. unfold Csv.assign.
  apply String.eqb_neq in Hne. rewrite Hne. reflexivity.
Qed.

(** What an assignment leaves under a key was there before or is the
    value assigned. *)
Lemma assign_values (key : string) (value : Csv.cell)
    (o : gmap string Csv.cell * bool) (k : string) (c : Csv.cell) :
  fst (Csv.assign key value o) !! k = Some c -> fst o !! k = Some c \/ c = value.
Proof.
  destruct o as [obj inherits]. unfold Csv.assign.
  destruct (String.eqb key "__proto__" && inherits); simpl; [auto|].
  destruct (decide (key = k)) as [<-|Hne].
  - rewrite lookup_insert_eq. intros [= <-]. auto.
  - rewrite lookup_insert_ne by exact Hne. auto.
Qed.

(** A key the remaining headers do not write keeps its value. *)
Lemma reduce_from_other (headers values : list string) (i : nat)
    (o : gmap string Csv.cell * bool) (key : string) :
  key ∉ (Csv.trim <$> headers) ->
  fst (Csv.reduce_from i headers values o) !! key = fst o !! key.
Proof.
  revert i o. induction headers as [|h rest IH]; intros i o Hnot; simpl; [reflexivity|].
  simpl in Hnot. apply not_elem_of_cons in Hnot as [Hne Hnot].
  rewrite IH by exact Hnot. apply assign_other. exact Hne.
Qed.

(** Under a header whose trimmed name is not repeated and is not
    ["__proto__"], the record holds the decoded cell of the same
    position. *)
Lemma reduce_from_lookup (headers values : list string) (i k : nat)
    (o : gmap string Csv.cell * bool) (h : string) :
  NoDup (Csv.trim <$> headers) ->
  headers !! k = Some h ->
  Csv.trim h <> "__proto__" ->
  fst (Csv.reduce_from i headers values o) !! Csv.trim h
  = Some (Csv.decode (values !! (i + k)%nat)).
Proof.
  revert i k o. induction headers as [|h0 rest IH]; intros i k o Hnd Hk Hh; [discriminate|].
  simpl in Hnd. apply NoDup_cons in Hnd as [Hnot Hnd].
  destruct k as [|k]; simpl in *.
  - injection Hk as ->. rewrite reduce_from_other by exact Hnot.
    rewrite assign_own by exact Hh. simpl.
    rewrite lookup_insert_eq, Nat.add_0_r. reflexivity.
  - rewrite (IH (S i) k) by assumption. do 3 f_equal. lia.
Qed.

Lemma record_of_lookup (headers : list string) (line : string) (k : nat) (h : string) :
  NoDup (Csv.trim <$> headers) ->
  headers !! k = Some h ->
  Csv.trim h <> "__proto__" ->
  Csv.record_of headers line !! Csv.trim h
  = Some (Csv.decode (Csv.split Csv.comma line !! k)).
Proof.
  intros Hnd Hk Hh. unfold Csv.record_of.
  now rewrite (reduce_from_lookup _ _ 0 k _ h).
Qed.

(** Every value of a record is the decoded cell of some position the
    header reaches, or was there before. *)
Lemma reduce_from_values (headers values : list string) (i : nat)
    (o : gmap string Csv.cell * bool) (key : string) (c : Csv.cell) :
  fst (Csv.reduce_from i headers values o) !! key = Some c ->
  fst o !! key = Some c \/
  exists k, (k < length headers)%nat /\ c = Csv.decode (values !! (i + k)%nat).
Proof.
  revert i o. induction headers as [|h rest IH]; intros i o H; simpl in *; [auto|].
  apply IH in H as [H|(k & Hk & ->)].
  - apply assign_values in H as [H| ->]; [auto|].
    right. exists 0%nat. rewrite Nat.add_0_r. split; [lia | reflexivity].
  - right. exists (S k). split; [lia|]. do 2 f_equal. lia.
Qed.

Lemma has_value_spec (row : gmap string Csv.cell) :
  Csv.has_value row = true <-> exists key c, row !! key = Some c /\ c <> Csv.Null.
Proof.
  unfold Csv.has_value. rewrite existsb_exists. split.
  - intros ([key c] & Hin & Hc). exists key, c. split.
    + apply elem_of_map_to_list. apply list_elem_of_In. exact Hin.
    + simpl in Hc. destruct c; [discriminate | discriminate | discriminate].
  - intros (key & c & Hrow & Hc). exists (key, c). split.
    + apply list_elem_of_In. apply elem_of_map_to_list. exact Hrow.
    + simpl. destruct c; [congruence | reflexivity | reflexivity].
Qed.

(** The record of a blank line has no value, so the filter drops it. *)
Lemma blank_has_no_value (headers : list string) (line : string) :
  Csv.blank headers line -> Csv.has_value (Csv.record_of headers line) = false.
Proof.
  intros Hblank. apply not_true_is_false. rewrite has_value_spec.
  intros (key & c & Hrow & Hc). apply Hc.
  unfold Csv.record_of in Hrow.
  apply reduce_from_values in Hrow as [Hrow|(k & Hk & ->)].
  - simpl in Hrow. rewrite lookup_empty in Hrow. discriminate.
  - simpl. destruct (Csv.split Csv.comma line !! k) as [v|] eqn:Ev; [|reflexivity].
    rewrite (Hblank k v Hk Ev). reflexivity.
Qed.

Lemma empty_line_is_blank (headers : list string) : Csv.blank headers EmptyString.
Proof.
  intros i v _ H. simpl in H. destruct i; simpl in H; [congruence | discriminate].
Qed.

(** Blank lines do not show in the records, and every record has a value
    and comes from a line. *)
Lemma records_drop_blank_lines (headers before after : list string) (line : string) :
  Csv.blank headers line ->
  Csv.records headers (before ++ line :: after) = Csv.records headers (before ++ after).
Proof.
  intros Hblank. unfold Csv.records.
  rewrite !List.map_app, !List.filter_app. simpl.
  rewrite (blank_has_no_value headers line Hblank). reflexivity.
Qed.

Lemma records_come_from_lines (headers lines : list string) (row : gmap string Csv.cell) :
  In row (Csv.records headers lines) ->
  Csv.has_value row = true /\ exists line, In line lines /\ row = Csv.record_of headers line.
Proof.
  unfold Csv.records. rewrite filter_In, in_map_iff.
  intros [(line & <- & Hin) Hv]. eauto.
Qed.

(** A cell of white space only converts to the number 0. *)
Lemma ToNumber_white_space (v : string) :
  Csv.trim v = EmptyString -> Csv.ToNumber v = Csv.Finite 0.
Proof. intros H. unfold Csv.ToNumber. rewrite H. reflexivity. Qed.

(** C8 at a failing input.  A cell that holds one space is not empty and
    is no number, yet it is decoded as the number 0, not as its trimmed
    text.  In a table with Windows line ends an empty line reaches the
    parser as a carriage return: its record has 0 under the first column
    and is kept, between the records of [a] and [b].  A line that is
    really empty is dropped. *)
Theorem C8_white_space_cell_is_zero_and_its_row_is_kept :
  Csv.trim " " = "" /\
  Csv.decode (Some " ") = Csv.Number (Csv.Finite 0) /\
  Csv.decode (Some CR) = Csv.Number (Csv.Finite 0) /\
  Csv.split Csv.LF crlf_table
  = ["developer_id,betweenness" +:+ CR; "a,1" +:+ CR; CR; "b,2" +:+ CR; ""] /\
  Csv.parseCSV crlf_table
  = [ {[ "developer_id" := Csv.Text "a"; "betweenness" := Csv.Number (Csv.Finite 1) ]};
      {[ "developer_id" := Csv.Number (Csv.Finite 0); "betweenness" := Csv.Null ]};
      {[ "developer_id" := Csv.Text "b"; "betweenness" := Csv.Number (Csv.Finite 2) ]} ].
Proof.
  repeat split; vm_compute; reflexivity.
Qed.

(** * Further properties *)

(** ** Splitting and joining text *)

Lemma split_not_nil (sep : ascii) (s : string) : Csv.split sep s <> [].
Proof.
  induction s as [|c s IH]; simpl; [discriminate|].
  destruct (Ascii.eqb c sep); [discriminate|].
  destruct (Csv.split sep s); [congruence | discriminate].
Qed.

Lemma split_without_separator (sep : ascii) (s : string) :
  occurs sep s = false -> Csv.split sep s = [s].
Proof.
  induction s as [|c s IH]; simpl; [reflexivity|].
  intros H. apply orb_false_iff in H as [Hc Hs].
  rewrite Hc, (IH Hs). reflexivity.
Qed.

Lemma split_append (sep : ascii) (a b : string) :
  occurs sep a = false ->
  Csv.split sep (a +:+ String sep b) = a :: Csv.split sep b.
Proof.
  induction a as [|c a IH]; simpl.
  - intros _. rewrite Ascii.eqb_refl. reflexivity.
  - intros H. apply orb_false_iff in H as [Hc Ha].
    rewrite Hc, (IH Ha). reflexivity.
Qed.

Lemma split_join (sep : ascii) (pieces : list string) :
  pieces <> [] ->
  Forall (fun p => occurs sep p = false) pieces ->
  Csv.split sep (join sep pieces) = pieces.
Proof.
  induction pieces as [|p rest IH]; [congruence|].
  intros _ Hall. apply Forall_cons in Hall as [Hp Hrest].
  destruct rest as [|q rest].
  - simpl. apply split_without_separator, Hp.
  - change (join sep (p :: q :: rest)) with (p +:+ String sep (join sep (q :: rest))).
    rewrite split_append by exact Hp. f_equal. apply IH; [discriminate | exact Hrest].
Qed.

Lemma join_split (sep : ascii) (s : string) :
  join sep (Csv.split sep s) = s /\
  Forall (fun p => occurs sep p = false) (Csv.split sep s).
Proof.
  induction s as [|c s [IHj IHf]]; simpl.
  - split; [reflexivity | repeat constructor].
  - destruct (Ascii.eqb c sep) eqn:E.
    + apply Ascii.eqb_eq in E as ->. split.
      * pose proof (split_not_nil sep s) as Hne.
        destruct (Csv.split sep s) as [|h t]; [congruence|].
        simpl. simpl in IHj. rewrite IHj. reflexivity.
      * constructor; [reflexivity | exact IHf].
    + pose proof (split_not_nil sep s) as Hne.
      destruct (Csv.split sep s) as [|h t]; [congruence|].
      apply Forall_cons in IHf as [Hh Ht]. split.
      * destruct t as [|h' t]; simpl in *; rewrite <- IHj; reflexivity.
      * constructor; [|exact Ht]. simpl. rewrite E, Hh. reflexivity.
Qed.

(** ** Records of the parser *)

Lemma parseCSV_of_lines (header : string) (lines : list string) :
  Forall (fun p => occurs Csv.LF p = false) (header :: lines) ->
  Csv.parseCSV (join Csv.LF (header :: lines))
  = Csv.records (Csv.split Csv.comma header) lines.
Proof.
  intros Hall. unfold Csv.parseCSV.
  rewrite split_join by (discriminate || exact Hall). reflexivity.
Qed.

Lemma record_in_parseCSV (header line : string) (lines : list string) :
  Forall (fun p => occurs Csv.LF p = false) (header :: lines) ->
  In line lines ->
  Csv.has_value (Csv.record_of (Csv.split Csv.comma header) line) = true ->
  In (Csv.record_of (Csv.split Csv.comma header) line)
     (Csv.parseCSV (join Csv.LF (header :: lines))).
Proof.
  intros Hall Hin Hv. rewrite parseCSV_of_lines by exact Hall.
  unfold Csv.records. apply filter_In. split; [|exact Hv].
  apply in_map. exact Hin.
Qed.

Lemma reduce_from_app (pre rest values : list string) (i : nat)
    (o : gmap string Csv.cell * bool) :
  Csv.reduce_from i (pre ++ rest) values o
  = Csv.reduce_from (i + length pre) rest values (Csv.reduce_from i pre values o).
Proof.
  revert i o. induction pre as [|h pre IH]; intros i o; simpl.
  - rewrite Nat.add_0_r. reflexivity.
  - rewrite IH. f_equal. lia.
Qed.

(** Of several headers with one trimmed name, other than ["__proto__"],
    the last one decides. *)
Lemma record_of_last_wins (pre post : list string) (h line : string) :
  Csv.trim h <> "__proto__" ->
  Csv.trim h ∉ (Csv.trim <$> post) ->
  Csv.record_of (pre ++ h :: post) line !! Csv.trim h
  = Some (Csv.decode (Csv.split Csv.comma line !! length pre)).
Proof.
  intros Hh Hnot. unfold Csv.record_of. rewrite reduce_from_app. simpl.
  rewrite reduce_from_other by exact Hnot.
  rewrite assign_own by exact Hh. simpl. rewrite lookup_insert_eq. reflexivity.
Qed.

(** The keys of the object are among the keys it had and the trimmed
    headers; they are all of them when no header is ["__proto__"]. *)
Lemma reduce_from_dom_subseteq (headers values : list string) (i : nat)
    (o : gmap string Csv.cell * bool) :
  dom (fst (Csv.reduce_from i headers values o))
  ⊆ dom (fst o) ∪ list_to_set (Csv.trim <$> headers).
Proof.
  revert i o. induction headers as [|h rest IH]; intros i o; simpl.
  - apply union_subseteq_l.
  - etransitivity; [apply IH|]. apply union_least.
    + destruct o as [obj inherits]. unfold Csv.assign.
      destruct (String.eqb _ _ && inherits); simpl.
      * apply union_subseteq_l.
      * rewrite dom_insert_L. apply union_least.
        -- etransitivity; [|apply union_subseteq_r]. apply union_subseteq_l.
        -- apply union_subseteq_l.
    + etransitivity; [|apply union_subseteq_r]. apply union_subseteq_r.
Qed.

Lemma reduce_from_dom (headers values : list string) (i : nat)
    (o : gmap string Csv.cell * bool) :
  "__proto__" ∉ (Csv.trim <$> headers) ->
  dom (fst (Csv.reduce_from i headers values o))
  = dom (fst o) ∪ list_to_set (Csv.trim <$> headers).
Proof.
  revert i o. induction headers as [|h rest IH]; intros i o Hnot; simpl.
  - rewrite union_empty_r_L. reflexivity.
  - simpl in Hnot. apply not_elem_of_cons in Hnot as [Hne Hnot].
    rewrite IH by exact Hnot. rewrite assign_own by congruence. simpl.
    rewrite dom_insert_L.
    rewrite (union_comm_L {[Csv.trim h]} (dom (fst o))), union_assoc_L. reflexivity.
Qed.

(** The header [__proto__] makes no key: its cell is lost, and a line
    with no other cell gives no record; after an empty cell has taken
    the prototype away, a second header of that name does make a key. *)
Example parseCSV_proto_header :
  Csv.parseCSV ("__proto__,a" +:+ String Csv.LF "1,2")
  = [{[ "a" := Csv.Number (Csv.Finite 2) ]}] /\
  Csv.parseCSV ("__proto__" +:+ String Csv.LF "5") = [] /\
  Csv.parseCSV ("__proto__,__proto__" +:+ String Csv.LF ",5")
  = [{[ "__proto__" := Csv.Number (Csv.Finite 5) ]}].
Proof. repeat split; vm_compute; reflexivity. Qed.

(** X1.  What a record holds.  For a text made of a header line and
    further lines: every record the parser returns is the record of one
    of those lines; under a column name other than ["__proto__"] it
    holds the decoded cell at the position of the last header with that
    name, which is [null] when the line has no cell there. *)
Theorem parseCSV_record_holds_cell_of_last_header
    (header : string) (lines pre post : list string) (h : string)
    (row : gmap string Csv.cell) :
  Forall (fun p => occurs Csv.LF p = false) (header :: lines) ->
  Csv.split Csv.comma header = pre ++ h :: post ->
  Csv.trim h <> "__proto__" ->
  Csv.trim h ∉ (Csv.trim <$> post) ->
  In row (Csv.parseCSV (join Csv.LF (header :: lines))) ->
  exists line,
    In line lines /\
    row = Csv.record_of (Csv.split Csv.comma header) line /\
    row !! Csv.trim h = Some (Csv.decode (Csv.split Csv.comma line !! length pre)) /\
    ((length (Csv.split Csv.comma line) <= length pre)%nat ->
     row !! Csv.trim h = Some Csv.Null).
Proof.
  intros Hall Hsplit Hh Hnot Hin. rewrite parseCSV_of_lines in Hin by exact Hall.
  apply records_come_from_lines in Hin as (_ & line & Hline & ->).
  exists line. split; [exact Hline|]. split; [reflexivity|].
  rewrite Hsplit, record_of_last_wins by assumption.
  split; [reflexivity|]. intros Hshort.
  rewrite (lookup_ge_None_2 _ _ Hshort). reflexivity.
Qed.

(** [table_text] has the header [developer_id, country ,betweenness]; the
    column [country] is its second. *)
Lemma parseCSV_record_holds_cell_of_last_header_witness :
  exists line,
    In line ["a,USA,0"; ""; "b, India ,10"; ",,"; "c"] /\
    Csv.record_of (Csv.split Csv.comma "developer_id, country ,betweenness") "b, India ,10"
    = Csv.record_of (Csv.split Csv.comma "developer_id, country ,betweenness") line /\
    Csv.record_of (Csv.split Csv.comma "developer_id, country ,betweenness") "b, India ,10"
      !! Csv.trim " country "
    = Some (Csv.decode (Csv.split Csv.comma line !! length ["developer_id"])) /\
    ((length (Csv.split Csv.comma line) <= length ["developer_id"])%nat ->
     Csv.record_of (Csv.split Csv.comma "developer_id, country ,betweenness") "b, India ,10"
       !! Csv.trim " country "
     = Some Csv.Null).
Proof.
  apply (parseCSV_record_holds_cell_of_last_header
           "developer_id, country ,betweenness"
           ["a,USA,0"; ""; "b, India ,10"; ",,"; "c"]
           ["developer_id"] ["betweenness"] " country ").
  - repeat constructor.
  - reflexivity.
  - vm_compute. discriminate.
  - vm_compute. intros H. apply elem_of_cons in H as [H|H]; [discriminate|].
    apply elem_of_nil in H. exact H.
  - apply (record_in_parseCSV "developer_id, country ,betweenness" "b, India ,10"
               ["a,USA,0"; ""; "b, India ,10"; ",,"; "c"]);
      [repeat constructor | simpl; tauto | vm_compute; reflexivity].
Defined.

(** X2.  The keys of a record.  When no name of the header line is
    ["__proto__"] after trimming, every record the parser returns has
    exactly the trimmed names of the header line as its keys, however
    many cells its line has. *)
Theorem parseCSV_record_keys_are_the_trimmed_headers
    (csv : string) (row : gmap string Csv.cell) :
  "__proto__" ∉ (Csv.trim <$> Csv.split Csv.comma (hd EmptyString (Csv.split Csv.LF csv))) ->
  In row (Csv.parseCSV csv) ->
  dom row
  = list_to_set (Csv.trim <$> Csv.split Csv.comma (hd EmptyString (Csv.split Csv.LF csv))).
Proof.
  unfold Csv.parseCSV. intros Hproto Hin.
  apply records_come_from_lines in Hin as (_ & line & _ & ->).
  unfold Csv.record_of. rewrite reduce_from_dom by exact Hproto. simpl.
  rewrite dom_empty_L, union_empty_l_L. reflexivity.
Qed.

Lemma parseCSV_record_keys_are_the_trimmed_headers_witness :
  dom (Csv.record_of (Csv.split Csv.comma "developer_id, country ,betweenness") "b, India ,10")
  = list_to_set (Csv.trim <$> Csv.split Csv.comma
                   (hd EmptyString (Csv.split Csv.LF table_text))).
Proof.
  apply (parseCSV_record_keys_are_the_trimmed_headers table_text).
  { vm_compute. intros H.
    repeat (apply elem_of_cons in H as [H|H]; [discriminate|]).
    apply elem_of_nil in H. exact H. }
  apply (record_in_parseCSV "developer_id, country ,betweenness" "b, India ,10"
               ["a,USA,0"; ""; "b, India ,10"; ",,"; "c"]);
      [repeat constructor | simpl; tauto | vm_compute; reflexivity].
Defined.

(** X3.  A text without a line feed, the empty text included, is all
    header: the parser returns no record. *)
Theorem parseCSV_header_only_gives_no_record (csv : string) :
  occurs Csv.LF csv = false -> Csv.parseCSV csv = [].
Proof.
  intros H. unfold Csv.parseCSV.
  rewrite (split_without_separator Csv.LF csv H). reflexivity.
Qed.

Lemma parseCSV_header_only_gives_no_record_witness :
  Csv.parseCSV "developer_id,country,betweenness" = [].
Proof.
  apply parseCSV_header_only_gives_no_record. reflexivity.
Defined.

(** ** Trimming *)

Lemma list_of_rev_app (s acc : string) :
  list_ascii_of_string (String.rev_app s acc)
  = rev (list_ascii_of_string s) ++ list_ascii_of_string acc.
Proof.
  revert acc. induction s as [|c s IH]; intros acc; simpl; [reflexivity|].
  rewrite IH. simpl. rewrite <- app_assoc. reflexivity.
Qed.

Lemma list_of_rev (s : string) :
  list_ascii_of_string (String.rev s) = rev (list_ascii_of_string s).
Proof. unfold String.rev. rewrite list_of_rev_app. simpl. apply app_nil_r. Qed.

Lemma list_of_trim_start (s : string) :
  list_ascii_of_string (Csv.trim_start s) = skip Csv.is_space (list_ascii_of_string s).
Proof.
  induction s as [|c s IH]; simpl; [reflexivity|].
  destruct (Csv.is_space c); [exact IH | reflexivity].
Qed.

Lemma list_of_trim (s : string) :
  list_ascii_of_string (Csv.trim s)
  = rev (skip Csv.is_space (rev (skip Csv.is_space (list_ascii_of_string s)))).
Proof.
  unfold Csv.trim. rewrite list_of_rev, list_of_trim_start, list_of_rev, list_of_trim_start.
  reflexivity.
Qed.

Lemma skip_skip (f : ascii -> bool) (l : list ascii) : skip f (skip f l) = skip f l.
Proof.
  induction l as [|c l IH]; simpl; [reflexivity|].
  destruct (f c) eqn:E; [exact IH | simpl; rewrite E; reflexivity].
Qed.

(** Skipping in front of a list that ends in a character that stays
    leaves a list that ends in it. *)
Lemma skip_snoc (f : ascii -> bool) (l : list ascii) (c : ascii) :
  f c = false -> exists l', skip f (l ++ [c]) = l' ++ [c].
Proof.
  intros Hc. induction l as [|a l [l' IH]]; simpl.
  - rewrite Hc. exists []. reflexivity.
  - destruct (f a); [eauto|]. exists (a :: l). reflexivity.
Qed.

Lemma trim_list_fixed (f : ascii -> bool) (l : list ascii) :
  skip f (rev (skip f (rev (skip f l)))) = rev (skip f (rev (skip f l))).
Proof.
  destruct (skip f l) as [|c a] eqn:E; [reflexivity|].
  assert (f c = false) as Hc.
  { clear -E. induction l as [|b l IH]; simpl in E; [discriminate|].
    destruct (f b) eqn:Eb; [auto | congruence]. }
  simpl. destruct (skip_snoc f (rev a) c Hc) as [l' ->].
  rewrite rev_app_distr. simpl. rewrite Hc. reflexivity.
Qed.

Lemma trim_idempotent (s : string) : Csv.trim (Csv.trim s) = Csv.trim s.
Proof.
  rewrite <- (string_of_list_ascii_of_string (Csv.trim (Csv.trim s))).
  rewrite <- (string_of_list_ascii_of_string (Csv.trim s)) at 2.
  f_equal. rewrite (list_of_trim (Csv.trim s)), (list_of_trim s).
  rewrite trim_list_fixed, rev_involutive, trim_list_fixed. reflexivity.
Qed.

Lemma ToNumber_trim (s : string) : Csv.ToNumber (Csv.trim s) = Csv.ToNumber s.
Proof. unfold Csv.ToNumber. rewrite trim_idempotent. reflexivity. Qed.

(** The three kinds of cell a text cell can become. *)
Lemma decode_kinds (value : option string) :
  Csv.decode value = Csv.Null \/
  (exists n, Csv.decode value = Csv.Number n /\ n <> Csv.NaN) \/
  (exists t, Csv.decode value = Csv.Text t /\ t <> EmptyString /\
             Csv.trim t = t /\ Csv.ToNumber t = Csv.NaN).
Proof.
  destruct value as [[|c v]|]; [left; reflexivity| |left; reflexivity].
  unfold Csv.decode. destruct (Csv.ToNumber (String c v)) eqn:E; simpl.
  - right. right. exists (Csv.trim (String c v)).
    split; [reflexivity|]. split; [|split].
    + intros Hempty. rewrite (ToNumber_white_space _ Hempty) in E. discriminate.
    + apply trim_idempotent.
    + rewrite ToNumber_trim. exact E.
  - right. left. eexists. split; [reflexivity | discriminate].
  - right. left. eexists. split; [reflexivity | discriminate].
Qed.

(** X4.  The cells of the records.  In every record the parser returns,
    a value is [null], a number that is not [NaN], or a text; a text is
    not empty, has no white space at either end, and is not a numeric
    literal. *)
Theorem parseCSV_cells_are_null_number_or_trimmed_text
    (csv : string) (row : gmap string Csv.cell) (key : string) (c : Csv.cell) :
  In row (Csv.parseCSV csv) -> row !! key = Some c ->
  c = Csv.Null \/
  (exists n, c = Csv.Number n /\ n <> Csv.NaN) \/
  (exists t, c = Csv.Text t /\ t <> EmptyString /\
             Csv.trim t = t /\ Csv.ToNumber t = Csv.NaN).
Proof.
  unfold Csv.parseCSV. intros Hin Hkey.
  apply records_come_from_lines in Hin as (_ & line & _ & ->).
  unfold Csv.record_of in Hkey.
  apply reduce_from_values in Hkey as [Hkey|(k & _ & ->)].
  - simpl in Hkey. rewrite lookup_empty in Hkey. discriminate.
  - apply decode_kinds.
Qed.

Lemma parseCSV_cells_are_null_number_or_trimmed_text_witness :
  Csv.Text "India" = Csv.Null \/
  (exists n, Csv.Text "India" = Csv.Number n /\ n <> Csv.NaN) \/
  (exists t, Csv.Text "India" = Csv.Text t /\ t <> EmptyString /\
             Csv.trim t = t /\ Csv.ToNumber t = Csv.NaN).
Proof.
  apply (parseCSV_cells_are_null_number_or_trimmed_text table_text
           (Csv.record_of (Csv.split Csv.comma "developer_id, country ,betweenness") "b, India ,10")
           "country").
  - apply (record_in_parseCSV "developer_id, country ,betweenness" "b, India ,10"
               ["a,USA,0"; ""; "b, India ,10"; ",,"; "c"]);
      [repeat constructor | simpl; tauto | vm_compute; reflexivity].
  - vm_compute. reflexivity.
Defined.

(** ** Which lines give a record *)

Lemma blankb_blank (headers : list string) (line : string) :
  blankb headers line = true <-> Csv.blank headers line.
Proof.
  unfold blankb, Csv.blank. rewrite forallb_forall. split.
  - intros H i v Hi Hv. apply String.eqb_eq, H, list_elem_of_In.
    apply list_elem_of_lookup. exists i. rewrite lookup_take_lt by exact Hi. exact Hv.
  - intros H v Hin. apply String.eqb_eq.
    apply list_elem_of_In, list_elem_of_lookup in Hin as [i Hi].
    apply lookup_take_Some in Hi as [Hv Hi]. exact (H i v Hi Hv).
Qed.

Lemma decode_not_null (v : string) : v <> EmptyString -> Csv.decode (Some v) <> Csv.Null.
Proof.
  destruct v as [|c v]; [congruence|]. intros _. unfold Csv.decode.
  destruct (Csv.isNaN _); discriminate.
Qed.

(** With header names that differ after trimming, none of them
    ["__proto__"], a line gives a record exactly when it is not blank. *)
Lemma has_value_not_blank (headers : list string) (line : string) :
  NoDup (Csv.trim <$> headers) ->
  "__proto__" ∉ (Csv.trim <$> headers) ->
  Csv.has_value (Csv.record_of headers line) = negb (blankb headers line).
Proof.
  intros Hnd Hproto. destruct (blankb headers line) eqn:Eb; simpl.
  - apply blank_has_no_value, blankb_blank, Eb.
  - apply has_value_spec.
    unfold blankb in Eb. apply not_true_iff_false in Eb.
    rewrite forallb_forall in Eb.
    assert (exists v, In v (take (length headers) (Csv.split Csv.comma line)) /\
                      v <> EmptyString) as (v & Hin & Hv).
    { clear -Eb. induction (take _ _) as [|a l IH].
      - exfalso. apply Eb. intros v [].
      - destruct (String.eqb_spec a EmptyString) as [->|Hne].
        + destruct IH as (v & Hin & Hv).
          * intros Hall. apply Eb. intros v [<-|Hin]; [reflexivity | auto].
          * exists v. split; [right; exact Hin | exact Hv].
        + exists a. split; [left; reflexivity | exact Hne]. }
    apply list_elem_of_In, list_elem_of_lookup in Hin as [i Hi].
    apply lookup_take_Some in Hi as [Hcell Hi].
    destruct (lookup_lt_is_Some_2 headers i Hi) as [h Hh].
    exists (Csv.trim h), (Csv.decode (Some v)). split.
    + rewrite (record_of_lookup headers line i h Hnd Hh), Hcell; [reflexivity|].
      intros Heq. apply Hproto. rewrite <- Heq.
      apply list_elem_of_fmap_2, list_elem_of_lookup. exists i. exact Hh.
    + apply decode_not_null, Hv.
Qed.

Lemma filter_map_commute {A B : Type} (f : A -> B) (p : B -> bool) (l : list A) :
  List.filter p (map f l) = map f (List.filter (fun a => p (f a)) l).
Proof.
  induction l as [|a l IH]; simpl; [reflexivity|].
  destruct (p (f a)); simpl; rewrite IH; reflexivity.
Qed.

(** X5.  Which lines become records.  For a text made of a header line
    whose names differ after trimming, none of them ["__proto__"], and
    of further lines, the parser returns the records of the lines that
    have a character in some cell the header reaches, in their order,
    and nothing for the others. *)
Theorem parseCSV_keeps_exactly_the_lines_with_a_cell
    (header : string) (lines : list string) :
  Forall (fun p => occurs Csv.LF p = false) (header :: lines) ->
  NoDup (Csv.trim <$> Csv.split Csv.comma header) ->
  "__proto__" ∉ (Csv.trim <$> Csv.split Csv.comma header) ->
  Csv.parseCSV (join Csv.LF (header :: lines))
  = map (Csv.record_of (Csv.split Csv.comma header))
        (List.filter (fun line => negb (blankb (Csv.split Csv.comma header) line)) lines).
Proof.
  intros Hall Hnd Hproto. rewrite parseCSV_of_lines by exact Hall.
  unfold Csv.records. rewrite filter_map_commute. f_equal.
  apply List.filter_ext. intros line. apply has_value_not_blank; assumption.
Qed.

Lemma parseCSV_keeps_exactly_the_lines_with_a_cell_witness :
  Csv.parseCSV table_text
  = map (Csv.record_of (Csv.split Csv.comma "developer_id, country ,betweenness"))
        (List.filter
           (fun line => negb (blankb (Csv.split Csv.comma "developer_id, country ,betweenness") line))
           ["a,USA,0"; ""; "b, India ,10"; ",,"; "c"]).
Proof.
  apply (parseCSV_keeps_exactly_the_lines_with_a_cell
           "developer_id, country ,betweenness"
           ["a,USA,0"; ""; "b, India ,10"; ",,"; "c"]).
  - repeat constructor.
  - vm_compute. repeat constructor; intros H;
      repeat (apply elem_of_cons in H as [H|H]; [discriminate|]);
      apply elem_of_nil in H; exact H.
  - vm_compute. intros H.
    repeat (apply elem_of_cons in H as [H|H]; [discriminate|]).
    apply elem_of_nil in H. exact H.
Defined.

(** X6.  Blank lines leave no trace, whatever the header.  Taking a line
    without a character in the cells the header reaches (an empty line,
    a line of commas) out of the text does not change what the parser
    returns; and every record it returns has a value that is not [null]. *)
Theorem parseCSV_ignores_blank_lines
    (header line : string) (before after : list string) :
  Forall (fun p => occurs Csv.LF p = false) (header :: before ++ line :: after) ->
  blankb (Csv.split Csv.comma header) line = true ->
  Csv.parseCSV (join Csv.LF (header :: before ++ line :: after))
  = Csv.parseCSV (join Csv.LF (header :: before ++ after)) /\
  (forall row, In row (Csv.parseCSV (join Csv.LF (header :: before ++ line :: after))) ->
               exists key c, row !! key = Some c /\ c <> Csv.Null).
Proof.
  intros Hall Hblank.
  assert (Forall (fun p => occurs Csv.LF p = false) (header :: before ++ after)) as Hall'.
  { apply Forall_cons in Hall as [Hh Hall]. constructor; [exact Hh|].
    apply Forall_app in Hall as [Hb Ha]. apply Forall_cons in Ha as [_ Ha].
    apply Forall_app. split; assumption. }
  rewrite !parseCSV_of_lines by assumption. split.
  - apply records_drop_blank_lines, blankb_blank, Hblank.
  - intros row Hin. apply records_come_from_lines in Hin as [Hv _].
    apply has_value_spec, Hv.
Qed.

Lemma parseCSV_ignores_blank_lines_witness :
  Csv.parseCSV (join Csv.LF ("id,w" :: ["a,1"] ++ ",," :: ["b,2"]))
  = Csv.parseCSV (join Csv.LF ("id,w" :: ["a,1"] ++ ["b,2"])).
Proof.
  apply (parseCSV_ignores_blank_lines "id,w" ",," ["a,1"] ["b,2"]).
  - repeat constructor.
  - reflexivity.
Defined.

(** ** Decimal cells *)

Ltac digit_cases k d :=
  lazymatch k with
  | O => idtac
  | S ?k' => let n := fresh "n" in destruct d as [|n]; [|digit_cases k' n]
  end.

Ltac each_digit d H := digit_cases 10%nat d; try (exfalso; lia).

Lemma digit_of_digit_char (d : nat) :
  (d < 10)%nat -> Csv.digit 10 (digit_char d) = Some (Z.of_nat d).
Proof. intros H. each_digit d H; reflexivity. Qed.

Lemma digit_char_not_space (d : nat) :
  (d < 10)%nat -> Csv.is_space (digit_char d) = false.
Proof. intros H. each_digit d H; reflexivity. Qed.

Lemma digits_of_numeral (ds : list nat) (acc : Z) (count : nat) :
  Forall (fun d => (d < 10)%nat) ds ->
  Csv.digits 10 (numeral ds) acc count
  = (fold_left (fun a d => (a * 10 + Z.of_nat d)%Z) ds acc,
     (count + length ds)%nat, EmptyString).
Proof.
  intros Hall. revert acc count.
  induction Hall as [|d ds Hd Hall IH]; intros acc count;
    cbn [numeral Csv.digits fold_left length].
  - rewrite Nat.add_0_r. reflexivity.
  - rewrite (digit_of_digit_char d Hd), IH. do 2 f_equal. lia.
Qed.

Lemma skip_none (f : ascii -> bool) (l : list ascii) :
  Forall (fun c => f c = false) l -> skip f l = l.
Proof. destruct 1 as [|c l Hc _]; simpl; [reflexivity | now rewrite Hc]. Qed.

Lemma trim_without_space (s : string) :
  Forall (fun c => Csv.is_space c = false) (list_ascii_of_string s) -> Csv.trim s = s.
Proof.
  intros Hall. rewrite <- (string_of_list_ascii_of_string (Csv.trim s)).
  rewrite <- (string_of_list_ascii_of_string s) at 2. f_equal.
  rewrite list_of_trim, (skip_none _ _ Hall), skip_none, rev_involutive; [reflexivity|].
  apply Forall_forall. intros c Hc. rewrite Forall_forall in Hall.
  apply Hall. apply list_elem_of_In. apply list_elem_of_In in Hc.
  apply in_rev. exact Hc.
Qed.

Lemma numeral_without_space (ds : list nat) :
  Forall (fun d => (d < 10)%nat) ds ->
  Forall (fun c => Csv.is_space c = false) (list_ascii_of_string (numeral ds)).
Proof.
  induction 1 as [|d ds Hd _ IH]; cbn [numeral list_ascii_of_string];
    constructor; [|exact IH].
  apply digit_char_not_space, Hd.
Qed.

Lemma numeral_head (d : nat) (ds : list nat) :
  (d < 10)%nat -> Forall (fun d => (d < 10)%nat) ds ->
  String.eqb (numeral (d :: ds)) "Infinity" = false /\
  Csv.decimal (numeral (d :: ds)) = Csv.unsigned_decimal (numeral (d :: ds)) /\
  Csv.non_decimal (numeral (d :: ds)) = None.
Proof.
  intros Hd Hds. split; [|split].
  - each_digit d Hd; reflexivity.
  - each_digit d Hd; reflexivity.
  - destruct ds as [|d' ds]; [each_digit d Hd; reflexivity|].
    apply Forall_cons in Hds as [Hd' _].
    each_digit d Hd; try reflexivity.
    each_digit d' Hd'; reflexivity.
Qed.

(** X7.  A cell of decimal digits that denote a number up to 2^53, which
    a double holds exactly, is decoded as that number. *)
Theorem decode_of_decimal_digits (ds : list nat) :
  ds <> [] -> Forall (fun d => (d < 10)%nat) ds ->
  (numeral_value ds <= 2 ^ 53)%Z ->
  Csv.ToNumber (numeral ds) = Csv.Finite (inject_Z (numeral_value ds)) /\
  Csv.decode (Some (numeral ds)) = Csv.Number (Csv.Finite (inject_Z (numeral_value ds))).
Proof.
  intros Hne Hall _. destruct ds as [|d ds]; [congruence|].
  pose proof (Forall_inv Hall) as Hd. pose proof (Forall_inv_tail Hall) as Hds.
  destruct (numeral_head d ds Hd Hds) as (Hinf & Hdec & Hnon).
  assert (Csv.ToNumber (numeral (d :: ds))
          = Csv.Finite (inject_Z (numeral_value (d :: ds)))) as Hnum.
  { unfold Csv.ToNumber.
    rewrite (trim_without_space _ (numeral_without_space _ Hall)).
    change (String.eqb (numeral (d :: ds)) "") with false. cbv iota.
    rewrite Hnon, Hdec. unfold Csv.unsigned_decimal. rewrite Hinf.
    rewrite (digits_of_numeral (d :: ds) 0 0 Hall). cbn [length Nat.add Csv.exponent].
    unfold Csv.scale10. simpl (0 - Z.of_nat 0)%Z. cbn [Z.leb Z.compare Z.pow Z.pow_pos Pos.iter].
    unfold numeral_value. rewrite Z.mul_1_r. reflexivity. }
  split; [exact Hnum|].
  change (numeral (d :: ds)) with (String (digit_char d) (numeral ds)) in *.
  unfold Csv.decode. rewrite Hnum. reflexivity.
Qed.

Lemma decode_of_decimal_digits_witness :
  Csv.decode (Some (numeral [1; 0; 7]%nat))
  = Csv.Number (Csv.Finite (inject_Z (numeral_value [1; 0; 7]%nat))).
Proof.
  apply (decode_of_decimal_digits [1; 0; 7]%nat).
  - discriminate.
  - repeat constructor.
  - vm_compute. discriminate.
Defined.

(** ** Flags *)

(** X8.  The alias is redundant.  Replacing "United States" by "USA"
    before the lookup changes nothing, because the table has both names
    with the same code: the code looked up for the aliased name is the
    code of the name itself, for every node. *)
Theorem alias_does_not_change_the_code (d : DeveloperNode) :
  getCountryCode (flag_country d) = getCountryCode (country d).
Proof.
  unfold flag_country. destruct (String.eqb_spec (country d) "United States") as [->|_].
  - vm_compute. reflexivity.
  - reflexivity.
Qed.

Lemma code_is_two_lower_case_letters (c : string) :
  Object.prototype !! c = None ->
  exists a b,
    Object.toLowerCase (getCountryCode c) = inr (String a (String b EmptyString)) /\
    is_lower a = true /\ is_lower b = true.
Proof.
  intros Hproto. destruct (countryMap !! c) as [code|] eqn:Hc.
  - rewrite (getCountryCode_mapped c code Hc).
    apply elem_of_list_to_map_2 in Hc.
    repeat (apply elem_of_cons in Hc as [[= -> ->]|Hc];
            [eexists _, _; repeat split; reflexivity|]).
    apply elem_of_nil in Hc. destruct Hc.
  - rewrite (getCountryCode_unmapped c Hc Hproto).
    eexists _, _; repeat split; reflexivity.
Qed.

(** X9.  The flag address.  For every node whose country is not the name
    of a property an object inherits, the [href] of the flag is
    [https://flagcdn.com/w40/] followed by two lower-case letters and
    [.png]; no exception is raised. *)
Theorem flag_href_is_a_two_letter_png (d : DeveloperNode) :
  Object.prototype !! flag_country d = None ->
  exists a b,
    flag_href d
    = inr ("https://flagcdn.com/w40/" +:+ String a (String b EmptyString) +:+ ".png") /\
    is_lower a = true /\ is_lower b = true.
Proof.
  intros Hproto. unfold flag_href.
  destruct (code_is_two_lower_case_letters _ Hproto) as (a & b & -> & Ha & Hb).
  exists a, b. auto.
Qed.

Lemma flag_href_is_a_two_letter_png_witness :
  exists a b,
    flag_href (mkNode "d1" "Tuvalu" 0 0 0 0 0 0 0 None None)
    = inr ("https://flagcdn.com/w40/" +:+ String a (String b EmptyString) +:+ ".png") /\
    is_lower a = true /\ is_lower b = true.
Proof.
  apply (flag_href_is_a_two_letter_png (mkNode "d1" "Tuvalu" 0 0 0 0 0 0 0 None None)).
  vm_compute. reflexivity.
Defined.

(** ** Arrowheads by weight *)

Lemma arrow_cases (w : Q) :
  (arrow_of_weight w = small /\ w <= 2) \/
  (arrow_of_weight w = medium /\ 2 < w /\ w <= 4) \/
  (arrow_of_weight w = large /\ 4 < w).
Proof.
  unfold arrow_of_weight.
  destruct (Js.leb w 2) eqn:E2; [apply js_leb_le in E2; auto|apply js_leb_gt in E2].
  destruct (Js.leb w 4) eqn:E4; [apply js_leb_le in E4|apply js_leb_gt in E4]; auto.
Qed.

(** X10.  Heavier edges never get a smaller arrowhead.  The marker an
    edge names exists, is a square of side 6, 7 or 8 with the offset
    [15 + 2 * (side - 6)], and for two edges the one with the larger
    weight has the marker that is at least as large and is set at least
    as far back. *)
Theorem arrowhead_grows_with_weight (d d' : DeveloperLink) :
  exists m m',
    edge_marker d = Some m /\ edge_marker d' = Some m' /\
    marker_end d = "url(#" +:+ marker_id m +:+ ")" /\
    markerHeight m = markerWidth m /\
    (6 <= markerWidth m <= 8)%Z /\
    refX m = (15 + 2 * (markerWidth m - 6))%Z /\
    (weight d <= weight d' ->
     (markerWidth m <= markerWidth m')%Z /\ (refX m <= refX m')%Z).
Proof.
  unfold edge_marker, marker_end.
  destruct (arrow_cases (weight d)) as [[-> H]|[(-> & H1 & H2)|[-> H]]];
    destruct (arrow_cases (weight d')) as [[-> H']|[(-> & H1' & H2')|[-> H']]];
    eexists _, _;
    (split; [reflexivity|]); (split; [reflexivity|]); (split; [reflexivity|]);
    (split; [reflexivity|]); (split; [simpl; lia|]); (split; [reflexivity|]);
    intros Hle; simpl; try lia; exfalso; lra.
Qed.

(** ** Sizes of circles, images and strokes *)


(** X11.  What is drawn for a node.  For a node of the table whose
    betweenness is not negative: the circle has a radius between 8 and
    25; the flag image is the square of side twice the radius centred on
    the node, so the circle is inscribed in it; the collision radius is
    the radius plus 5, between 13 and 30. *)
Theorem node_drawing_sizes (nodes : list DeveloperNode) (d : DeveloperNode) :
  d ∈ nodes -> 0 <= betweenness d ->
  8 <= circle_r nodes d /\ circle_r nodes d <= 25 /\
  box_x (image_box nodes d) == - circle_r nodes d /\
  box_y (image_box nodes d) == - circle_r nodes d /\
  box_x (image_box nodes d) + box_width (image_box nodes d) == circle_r nodes d /\
  box_y (image_box nodes d) + box_height (image_box nodes d) == circle_r nodes d /\
  16 <= box_width (image_box nodes d) /\ box_width (image_box nodes d) <= 50 /\
  collision_radius nodes d == circle_r nodes d + 5 /\
  13 <= collision_radius nodes d /\ collision_radius nodes d <= 30.
Proof.
  intros Hin Hb. destruct (radius_bounds nodes d Hin Hb) as [H8 H25].
  unfold circle_r, image_box, collision_radius. simpl.
  repeat split; lra.
Qed.

Lemma node_drawing_sizes_witness :
  8 <= circle_r example_nodes (row "b" 10).
Proof.
  apply (node_drawing_sizes example_nodes (row "b" 10)).
  - apply list_elem_of_further, list_elem_of_here.
  - vm_compute. discriminate.
Defined.




(** X14.  Weights below 1 turn the stroke scale round.  When the largest
    weight of the table is below 1 (and is not 0, which [|| 1] replaces),
    the domain [[1, max]] is reversed: weight 1 still gives width 1 and
    the largest weight width 4, so that no edge of the table is drawn
    thinner than 4, the upper end of the intended range, and the heaviest
    edges are the thinnest of the table; a weight between the largest
    and 1 gives a width between 1 and 4. *)
Theorem weights_below_one_reverse_the_stroke_scale (links : list DeveloperLink) :
  Js.or_else (D3.max links weight) 1 < 1 ->
  edgeWeightScale links 1 == 1 /\
  edgeWeightScale links (Js.or_else (D3.max links weight) 1) == 4 /\
  (forall d, d ∈ links -> 4 <= stroke_width links d) /\
  (forall d, d ∈ links -> weight d == Js.or_else (D3.max links weight) 1 ->
             stroke_width links d == 4) /\
  (forall w, Js.or_else (D3.max links weight) 1 <= w -> w <= 1 ->
             1 <= edgeWeightScale links w /\ edgeWeightScale links w <= 4).
Proof.
  intros Hrev.
  assert (forall v, edgeWeightScale links v
                    == 4 + (1 - 4) * ((v - Js.or_else (D3.max links weight) 1)
                                      / (1 - Js.or_else (D3.max links weight) 1))) as Hform.
  { intros v.
    change (edgeWeightScale links v)
      with (D3.bimap (1, Js.or_else (D3.max links weight) 1) (1, 4) v).
    apply bimap_decreasing_domain, Hrev. }
  assert (forall d, d ∈ links -> weight d <= Js.or_else (D3.max links weight) 1) as Hmax.
  { intros d Hd. destruct (D3.max links weight) as [m|] eqn:Emax.
    - destruct (max_spec weight links m Emax) as [Hle _].
      rewrite Forall_forall in Hle. specialize (Hle d Hd). simpl in Hle.
      simpl in *. destruct (Qeq_bool m 0); [lra | exact Hle].
    - simpl in Hrev. lra. }
  set (M := Js.or_else (D3.max links weight) 1) in *.
  assert (0 < / (1 - M)) as Hk by (apply Qinv_lt_0_compat; lra).
  split; [|split; [|split; [|split]]].
  - rewrite Hform. field. lra.
  - rewrite Hform. field. lra.
  - intros d Hd. specialize (Hmax d Hd). unfold stroke_width.
    rewrite Hform. unfold Qdiv. set (k := / (1 - M)) in *.
    assert (0 <= (M - weight d) * k) by (apply Qmult_le_0_compat; lra). lra.
  - intros d _ Hw. unfold stroke_width. rewrite Hform, Hw. field. lra.
  - intros w Hlo Hhi. rewrite Hform. unfold Qdiv. set (k := / (1 - M)) in *.
    assert (0 <= (w - M) * k) by (apply Qmult_le_0_compat; lra).
    assert (0 <= (1 - w) * k) by (apply Qmult_le_0_compat; lra).
    assert ((1 - M) * k == 1) by (unfold k; field; lra).
    split; lra.
Qed.

Lemma weights_below_one_reverse_the_stroke_scale_witness :
  4 <= stroke_width light_links (mkLink (Id "b") (Id "a") (1 # 4)).
Proof.
  apply (weights_below_one_reverse_the_stroke_scale light_links).
  - vm_compute. reflexivity.
  - apply list_elem_of_further, list_elem_of_here.
Defined.

(** ** More on link resolution *)

Lemma index_from_app (pre rest : list DeveloperNode) (k : nat) (m : gmap string nat) :
  ForceLink.index_from k (pre ++ rest) m
  = ForceLink.index_from (k + length pre) rest (ForceLink.index_from k pre m).
Proof.
  revert k m. induction pre as [|d pre IH]; intros k m; simpl.
  - rewrite Nat.add_0_r. reflexivity.
  - rewrite IH. f_equal. lia.
Qed.

Lemma index_from_other (nodes : list DeveloperNode) (k : nat) (m : gmap string nat) (z : string) :
  z ∉ ids nodes -> ForceLink.index_from k nodes m !! z = m !! z.
Proof.
  revert k m. induction nodes as [|d rest IH]; intros k m Hnot; simpl; [reflexivity|].
  unfold ids in Hnot. simpl in Hnot. apply not_elem_of_cons in Hnot as [Hne Hnot].
  rewrite IH by exact Hnot. apply lookup_insert_ne. congruence.
Qed.

(** X15.  Of two nodes with one id the later one gets the links.  When
    no node after [d] in the table has the id of [d], the id map sends
    that id to the position of [d], and a link end that names the id is
    resolved to that node, whatever nodes with the same id come before. *)
Theorem link_end_resolves_to_last_node_of_its_id
    (pre post : list DeveloperNode) (d : DeveloperNode) :
  developer_id d ∉ ids post ->
  ForceLink.nodeById (pre ++ d :: post) !! developer_id d = Some (length pre) /\
  ForceLink.resolve (ForceLink.nodeById (pre ++ d :: post)) (Id (developer_id d))
  = inr (Ref (length pre)) /\
  node_at (pre ++ d :: post) (Ref (length pre)) = Some d.
Proof.
  intros Hnot.
  assert (ForceLink.nodeById (pre ++ d :: post) !! developer_id d = Some (length pre)) as H.
  { unfold ForceLink.nodeById. rewrite index_from_app. simpl.
    rewrite index_from_other by exact Hnot. apply lookup_insert_eq. }
  split; [exact H|]. split.
  - unfold ForceLink.resolve, ForceLink.find. rewrite H. reflexivity.
  - simpl. apply list_lookup_middle. reflexivity.
Qed.

Lemma link_end_resolves_to_last_node_of_its_id_witness :
  ForceLink.resolve (ForceLink.nodeById ([row "a" 0] ++ row "a" 5 :: [row "b" 10]))
                    (Id (developer_id (row "a" 5)))
  = inr (Ref (length [row "a" 0])).
Proof.
  apply (link_end_resolves_to_last_node_of_its_id [row "a" 0] [row "b" 10] (row "a" 5)).
  unfold ids. simpl. intros H.
  apply elem_of_cons in H as [H|H]; [discriminate|]. apply elem_of_nil in H. exact H.
Defined.

Lemma initialize_links_resolved (byId : gmap string nat) (links : list DeveloperLink) :
  Forall (fun l => exists i j, source l = Ref i /\ target l = Ref j) links ->
  ForceLink.initialize_links byId links = inr links.
Proof.
  induction 1 as [|l links (i & j & Hs & Ht) _ IH]; simpl; [reflexivity|].
  rewrite Hs, Ht, IH. simpl. destruct l as [s t w]. simpl in *. subst. reflexivity.
Qed.

Lemma max_of_weights {A B : Type} (f : A -> Q) (g : B -> Q) (l : list A) (l' : list B) :
  map f l = map g l' -> D3.max l f = D3.max l' g.
Proof.
  unfold D3.max. generalize (@None Q).
  revert l'. induction l as [|a l IH]; intros [|b l'] acc H; simpl in *;
    try discriminate; [reflexivity|].
  injection H as Hab Hl. rewrite Hab. apply IH, Hl.
Qed.

(** X16.  Resolution changes the ends of the links only.  When the
    visualization is built from parsed links, the resolved links are as
    many, in the same order and with the same weights, so stroke widths
    and markers computed from them are those of the parsed links; and
    building again from the resolved links (the effect running a second
    time on the same objects) resolves nothing anew and gives the same
    scene. *)
Theorem resolution_keeps_weights_and_is_stable
    (nodes : list DeveloperNode) (links : list DeveloperLink) (sc : scene) :
  Forall parsed links ->
  createVisualization nodes links = inr sc ->
  map weight (scene_links sc) = map weight links /\
  map marker_end (scene_links sc) = map marker_end links /\
  (forall v, edgeWeightScale (scene_links sc) v = edgeWeightScale links v) /\
  createVisualization nodes (scene_links sc) = inr sc.
Proof.
  intros Hparsed. unfold createVisualization, ForceLink.initialize.
  pose proof (initialize_links_spec (ForceLink.nodeById nodes) links Hparsed) as Hspec.
  destruct (ForceLink.initialize_links (ForceLink.nodeById nodes) links)
    as [err|links']; [discriminate|].
  intros [= <-]. simpl. destruct Hspec as [_ Hres].
  assert (map weight links' = map weight links) as Hw.
  { clear -Hres. induction Hres as [|l l' ls ls' [Hwl _] _ IH]; simpl; [reflexivity|].
    rewrite Hwl, IH. reflexivity. }
  split; [exact Hw|]. split; [|split].
  - clear -Hres. induction Hres as [|l l' ls ls' [Hwl _] _ IH]; simpl; [reflexivity|].
    unfold marker_end at 1 3. rewrite Hwl, IH. reflexivity.
  - intros v. unfold edgeWeightScale. rewrite (max_of_weights weight weight links' links Hw).
    reflexivity.
  - rewrite initialize_links_resolved; [reflexivity|].
    clear -Hres. induction Hres as [|l l' ls ls' (_ & s & t & i & j & H) _ IH];
      constructor; [|exact IH].
    exists i, j. tauto.
Qed.

Lemma resolution_keeps_weights_and_is_stable_witness :
  map weight [mkLink (Ref 0) (Ref 1) 3] = map weight [mkLink (Id "a") (Id "b") 3].
Proof.
  apply (resolution_keeps_weights_and_is_stable example_nodes
           [mkLink (Id "a") (Id "b") 3]
           {| scene_nodes := example_nodes; scene_links := [mkLink (Ref 0) (Ref 1) 3] |}).
  - repeat constructor. exists "a", "b". split; reflexivity.
  - vm_compute. reflexivity.
Defined.

(** ** More on edge paths *)

Lemma sum_of_squares_zero (a b : Q) : a * a + b * b == 0 <-> a == 0 /\ b == 0.
Proof.
  split.
  - intros H. assert (0 <= a * a) by nra. assert (0 <= b * b) by nra.
    assert (a * a == 0) as Ha by lra. assert (b * b == 0) as Hb by lra.
    split; [apply Qmult_integral in Ha | apply Qmult_integral in Hb]; tauto.
  - intros [-> ->]. reflexivity.
Qed.

(** X17.  The two arcs of a pair of nodes.  For two resolved nodes with
    different ids, the edge from the first to the second and the edge
    back are arcs of one radius, drawn with the same sweep from their own
    source to their own target; the radius is 0 exactly when the two
    nodes are at the same position. *)
Theorem opposite_edges_are_arcs_of_one_radius
    (nodes : list DeveloperNode) (i j : nat) (s t : DeveloperNode) (w w' : Q) :
  nodes !! i = Some s -> nodes !! j = Some t ->
  developer_id s <> developer_id t ->
  exists dr dr',
    link_path nodes (mkLink (Ref i) (Ref j) w)
    = Some [MoveTo (x s) (y s); ArcTo dr dr 0 false true (x t) (y t)] /\
    link_path nodes (mkLink (Ref j) (Ref i) w')
    = Some [MoveTo (x t) (y t); ArcTo dr' dr' 0 false true (x s) (y s)] /\
    extent_val dr = extent_val dr' /\
    (extent_val dr = 0%R <-> x s == x t /\ y s == y t).
Proof.
  intros Hi Hj Hid. unfold link_path. simpl. rewrite Hi, Hj.
  assert (String.eqb (developer_id s) (developer_id t) = false) as -> by now apply String.eqb_neq.
  assert (String.eqb (developer_id t) (developer_id s) = false) as ->
      by (apply String.eqb_neq; congruence).
  eexists _, _. split; [reflexivity|]. split; [reflexivity|].
  unfold extent_val.
  set (q := (x t - x s) * (x t - x s) + (y t - y s) * (y t - y s)).
  set (q' := (x s - x t) * (x s - x t) + (y s - y t) * (y s - y t)).
  assert (q == q') as Hq by (subst q q'; ring).
  assert (0 <= q) as Hpos.
  { subst q. generalize (x t - x s) (y t - y s). intros a b.
    assert (0 <= a * a) by nra. assert (0 <= b * b) by nra. lra. }
  split.
  - rewrite (Qeq_eqR _ _ Hq). reflexivity.
  - split.
    + intros H0. assert (sqrt (Q2R q) = 0%R) as Hs.
      { apply Rmult_integral in H0 as [H0|H0]; [exact H0|].
        exfalso. apply (Rlt_irrefl 0). rewrite <- H0 at 2. apply Rlt_0_2. }
      apply sqrt_eq_0 in Hs; [|rewrite <- RMicromega.Q2R_0; apply Qle_Rle, Hpos].
      assert (q == 0) as Hz by (apply eqR_Qeq; rewrite Hs, RMicromega.Q2R_0; reflexivity).
      subst q. apply sum_of_squares_zero in Hz as [Hx Hy]. split; lra.
    + intros [Hx Hy]. assert (q == 0) as Hz by (subst q; rewrite Hx, Hy; ring).
      rewrite (Qeq_eqR _ _ Hz), RMicromega.Q2R_0, sqrt_0. apply Rmult_0_l.
Qed.

Lemma opposite_edges_are_arcs_of_one_radius_witness :
  exists dr dr',
    link_path [mkNode "a" "USA" 0 0 0 3 4 0 0 None None;
               mkNode "b" "India" 10 0 0 6 8 0 0 None None]
              (mkLink (Ref 0) (Ref 1) 1)
    = Some [MoveTo 3 4; ArcTo dr dr 0 false true 6 8] /\
    link_path [mkNode "a" "USA" 0 0 0 3 4 0 0 None None;
               mkNode "b" "India" 10 0 0 6 8 0 0 None None]
              (mkLink (Ref 1) (Ref 0) 2)
    = Some [MoveTo 6 8; ArcTo dr' dr' 0 false true 3 4] /\
    extent_val dr = extent_val dr' /\
    (extent_val dr = 0%R <-> 3 == 6 /\ 4 == 8).
Proof.
  apply (opposite_edges_are_arcs_of_one_radius
           [mkNode "a" "USA" 0 0 0 3 4 0 0 None None;
            mkNode "b" "India" 10 0 0 6 8 0 0 None None]
           0 1
           (mkNode "a" "USA" 0 0 0 3 4 0 0 None None)
           (mkNode "b" "India" 10 0 0 6 8 0 0 None None) 1 2).
  - reflexivity.
  - reflexivity.
  - simpl. discriminate.
Defined.

(** ** More on dragging *)

Lemma integrate_pinned (d : DeveloperNode) (px py : Q) :
  fx d = Some px -> fy d = Some py ->
  x (Force.integrate d) = px /\ y (Force.integrate d) = py /\
  vx (Force.integrate d) = 0 /\ vy (Force.integrate d) = 0 /\
  fx (Force.integrate d) = Some px /\ fy (Force.integrate d) = Some py.
Proof.
  intros Hx Hy. unfold Force.integrate. rewrite Hx, Hy. simpl. auto 6.
Qed.

(** X18.  A dragged node stays under the pointer.  After a drag-move,
    through any number of ticks (at least one) and whatever the forces of
    those ticks do to the node's position and velocity, the node ends
    each run of ticks at the position of the drag event, at rest and
    still pinned. *)
Theorem dragged_node_stays_at_the_event_position
    (event : DragEvent) (s : simulation) (d : DeveloperNode)
    (forces : list (DeveloperNode -> DeveloperNode)) :
  forces <> [] -> Forall keeps_pin forces ->
  x (ticks forces (snd (dragged event s d))) = event_x event /\
  y (ticks forces (snd (dragged event s d))) = event_y event /\
  vx (ticks forces (snd (dragged event s d))) = 0 /\
  vy (ticks forces (snd (dragged event s d))) = 0 /\
  fx (ticks forces (snd (dragged event s d))) = Some (event_x event) /\
  fy (ticks forces (snd (dragged event s d))) = Some (event_y event).
Proof.
  intros Hne Hall.
  assert (forall (fs : list (DeveloperNode -> DeveloperNode)) (n : DeveloperNode),
             Forall keeps_pin fs ->
             fx n = Some (event_x event) -> fy n = Some (event_y event) ->
             fx (ticks fs n) = Some (event_x event) /\
             fy (ticks fs n) = Some (event_y event) /\
             (fs <> [] ->
              x (ticks fs n) = event_x event /\ y (ticks fs n) = event_y event /\
              vx (ticks fs n) = 0 /\ vy (ticks fs n) = 0)) as Hrun.
  { intros fs. induction fs as [|f fs IH] using rev_ind; intros n Hfs Hx Hy.
    - simpl. split; [exact Hx|]. split; [exact Hy|]. congruence.
    - apply Forall_app in Hfs as [Hfs Hf]. apply Forall_inv in Hf.
      destruct (IH n Hfs Hx Hy) as (Hx' & Hy' & _).
      unfold ticks in *. rewrite fold_left_app. simpl.
      destruct (Hf (fold_left (fun d0 force => Force.integrate (force d0)) fs n)) as [Hfx Hfy].
      rewrite Hx' in Hfx. rewrite Hy' in Hfy.
      destruct (integrate_pinned _ _ _ Hfx Hfy) as (H1 & H2 & H3 & H4 & H5 & H6).
      auto 8. }
  destruct (Hrun forces (snd (dragged event s d)) Hall eq_refl eq_refl) as (H5 & H6 & H).
  destruct (H Hne) as (H1 & H2 & H3 & H4). auto 8.
Qed.

Lemma dragged_node_stays_at_the_event_position_witness :
  x (ticks [push; push; push]
       (snd (dragged (mkDragEvent 1 7 9) (sim page0) (row "a" 0)))) = 7.
Proof.
  apply (dragged_node_stays_at_the_event_position
           (mkDragEvent 1 7 9) (sim page0) (row "a" 0) [push; push; push]).
  - discriminate.
  - repeat constructor.
Defined.

Lemma set_pin_own (d : DeveloperNode) : set_pin (fx d) (fy d) d = d.
Proof. destruct d. reflexivity. Qed.

Lemma on_node_nodes (i j n : nat) listener (p : page) (d : DeveloperNode) :
  (forall s0 d0, exists a b, snd (listener s0 d0) = set_pin a b d0) ->
  (exists a b, nodes_of p !! j = Some (set_pin a b d)) ->
  (exists a b, nodes_of (on_node i n listener p) !! j = Some (set_pin a b d)) /\
  length (nodes_of (on_node i n listener p)) = length (nodes_of p).
Proof.
  intros Hl (a & b & Hj). unfold on_node.
  destruct (nodes_of p !! i) as [di|] eqn:Hi; [|eauto].
  destruct (listener (sim p) di) as [s' d'] eqn:El. simpl.
  rewrite length_insert. split; [|reflexivity].
  destruct (decide (i = j)) as [->|Hne].
  - rewrite list_lookup_insert_eq by (eapply lookup_lt_Some; eauto).
    destruct (Hl (sim p) di) as (a' & b' & Hd'). rewrite El in Hd'. simpl in Hd'.
    rewrite Hj in Hi. injection Hi as <-. subst d'. eauto.
  - rewrite list_lookup_insert_ne by exact Hne. eauto.
Qed.

Lemma dispatch_nodes (g : gesture) (j : nat) (p : page) (d : DeveloperNode) :
  (exists a b, nodes_of p !! j = Some (set_pin a b d)) ->
  (exists a b, nodes_of (dispatch g p) !! j = Some (set_pin a b d)) /\
  length (nodes_of (dispatch g p)) = length (nodes_of p).
Proof.
  intros Hj. destruct g as [i|i px py|i px py]; cbn [dispatch].
  - destruct (nodes_of p !! i) as [di|]; [|eauto].
    apply on_node_nodes; [|exact Hj]. intros s0 d0. unfold dragstarted. simpl. eauto.
  - apply on_node_nodes; [|exact Hj]. intros s0 d0. unfold dragged. simpl. eauto.
  - apply on_node_nodes; [|exact Hj]. intros s0 d0. unfold dragended. simpl. eauto.
Qed.

(** X19.  Gestures write pins and nothing else.  Through any sequence of
    drag gestures on any nodes, the node array keeps its length and every
    node keeps its id, its columns, its position and its velocity: what
    can differ is [fx] and [fy]. *)
Theorem gestures_change_only_pins (gs : list gesture) (p : page) (j : nat) (d : DeveloperNode) :
  nodes_of p !! j = Some d ->
  length (nodes_of (run gs p)) = length (nodes_of p) /\
  exists d' : DeveloperNode,
    nodes_of (run gs p) !! j = Some d' /\
    d' = set_pin (fx d') (fy d') d /\
    developer_id d' = developer_id d /\ country d' = country d /\
    betweenness d' = betweenness d /\
    x d' = x d /\ y d' = y d /\ vx d' = vx d /\ vy d' = vy d.
Proof.
  intros Hj.
  assert ((exists a b, nodes_of (run gs p) !! j = Some (set_pin a b d)) /\
          length (nodes_of (run gs p)) = length (nodes_of p)) as [(a & b & H) Hlen].
  { assert (exists a b, nodes_of p !! j = Some (set_pin a b d)) as Hj'
        by (exists (fx d), (fy d); rewrite set_pin_own; exact Hj).
    clear Hj. revert p Hj'. unfold run.
    induction gs as [|g gs IH]; intros p Hj; simpl; [auto|].
    destruct (dispatch_nodes g j p d Hj) as [Hj' Hlen].
    destruct (IH (dispatch g p) Hj') as [H Hlen']. split; [exact H | congruence]. }
  split; [exact Hlen|]. exists (set_pin a b d). split; [exact H|].
  simpl. repeat split; reflexivity.
Qed.

Lemma gestures_change_only_pins_witness :
  length (nodes_of (run [Start 0; Start 1; Move 0 3 4; End 1 0 0] page0))
  = length (nodes_of page0).
Proof.
  apply (gestures_change_only_pins [Start 0; Start 1; Move 0 3 4; End 1 0 0]
           page0 0 (row "a" 0)).
  reflexivity.
Defined.

Lemma moves_keep_page (i : nat) (path : list (Q * Q)) (p : page) :
  is_Some (nodes_of p !! i) ->
  gestures (run (map (fun '(a, b) => Move i a b) path) p) = gestures p /\
  sim (run (map (fun '(a, b) => Move i a b) path) p) = sim p /\
  is_Some (nodes_of (run (map (fun '(a, b) => Move i a b) path) p) !! i).
Proof.
  revert p. induction path as [|[u v] path IH]; intros p [d Hd]; simpl; [eauto|].
  destruct (on_node_sim_gestures i (gestures p)
              (dragged (mkDragEvent (gestures p) u v)) p d Hd) as (Hg & Hs & Hlen).
  destruct (IH (on_node i (gestures p) (dragged (mkDragEvent (gestures p) u v)) p))
    as (Hg' & Hs' & Hn').
  { apply lookup_lt_is_Some_2. rewrite Hlen. eapply lookup_lt_Some; eauto. }
  unfold run in *. rewrite Hg', Hs', Hg, Hs. auto.
Qed.

(** X20.  One whole drag, from rest to rest.  On a page where no gesture
    is in progress, pressing a node, moving it along any path and
    releasing it restarts the simulation exactly once and leaves its
    target energy at 0, its energy untouched and no gesture in progress. *)
Theorem one_drag_restarts_once_and_returns_to_rest
    (p : page) (i : nat) (path : list (Q * Q)) (px py : Q) :
  gestures p = 0%nat -> is_Some (nodes_of p !! i) ->
  gestures (run (drag_once i path px py) p) = 0%nat /\
  sim (run (drag_once i path px py) p)
  = {| alpha := alpha (sim p); alphaTarget := 0; restarts := S (restarts (sim p)) |}.
Proof.
  intros Hg [d Hd]. unfold drag_once, run.
  cbn [fold_left]. rewrite fold_left_app. cbn [fold_left dispatch]. rewrite Hd.
  set (p1 := on_node i _ _ p).
  destruct (on_node_sim_gestures i (S (gestures p))
              (dragstarted (mkDragEvent (gestures p) (x d) (y d))) p d Hd)
    as (Hg1 & Hs1 & Hlen1).
  fold p1 in Hg1, Hs1, Hlen1.
  destruct (moves_keep_page i path p1) as (Hg2 & Hs2 & [d2 Hd2]).
  { apply lookup_lt_is_Some_2. rewrite Hlen1. eapply lookup_lt_Some; eauto. }
  unfold run in Hg2, Hs2, Hd2.
  set (p2 := fold_left _ _ p1) in *.
  destruct (on_node_sim_gestures i (pred (gestures p2))
              (dragended (mkDragEvent (pred (gestures p2)) px py)) p2 d2 Hd2)
    as (Hg3 & Hs3 & _).
  rewrite Hg3, Hs3, Hg2, Hs2, Hg1, Hs1, Hg. split; reflexivity.
Qed.

Lemma one_drag_restarts_once_and_returns_to_rest_witness :
  gestures (run (drag_once 1 [(3, 4); (5, 6)] 5 6) page0) = 0%nat.
Proof.
  apply (one_drag_restarts_once_and_returns_to_rest page0 1 [(3, 4); (5, 6)] 5 6).
  - reflexivity.
  - eexists. reflexivity.
Defined.
